(** * Wordle game engine (src/App.tsx, src/types.ts)

    A shallow embedding of the state and the handlers of the [App]
    component: [initGame], [handleKeyInput], [handleDelete], [handleEnter]
    and the physical keyboard listener [handleKeyDown].

    Modelling conventions.
    - A JS string is a [string]; [split('')] yields its one-character
      strings, [join('')] concatenates, [===] is decidable equality.
    - An array is a [list], read with [!!] ([None] is JS [undefined]) and
      written with [<[i:=x]>] after the index has been found in range.
      What JS does out of range is written out: reading a property of
      [undefined] is a [TypeError]; a write past the end of a row would
      create a sparse array, which the type [TileData[][]] does not describe
      and which the model reports as [SparseArray].
    - [Record<string, LetterState>] is a [gmap string LetterState]; a
      missing key reads as JS [undefined].  Keys that name a property of
      [Object.prototype] (none is shorter than seven characters) are outside
      the model.
    - The React state of the component is one record [State]; a handler is a
      function of the state of the render whose closure it is, events being
      handled one at a time, each by the handlers of the latest render.  An
      [async] handler stops at its [await] with the state its setters have
      produced so far and a continuation that receives the provider's answer
      and the state at that later moment.  [setTimeout] callbacks are
      returned as scheduled timers; real time is not modelled.
    - [currentRow] and [currentCol] are [nat]: the code only ever decrements
      a column that is positive.
    - Names follow the source; the stretches of [handleEnter] that have no
      name of their own are called after the comments that head them
      ([firstPass], [secondPass], [updateLetterStates], [checkWinLoss]). *)

From stdpp Require Import base decidable option list strings gmap.

Open Scope string_scope.
Open Scope list_scope.
Open Scope nat_scope.

(** ** src/types.ts *)

Inductive LetterState := INITIAL | CORRECT | PRESENT | ABSENT.

Inductive GameStatus := LOADING | PLAYING | VALIDATING | WON | LOST.

Record TileData := mkTile { char : string; state : LetterState }.

Abbreviation GridData := (list (list TileData)).

#[global] Instance LetterState_eq_dec : EqDecision LetterState.
Proof. solve_decision. Defined.

#[global] Instance GameStatus_eq_dec : EqDecision GameStatus.
Proof. solve_decision. Defined.

#[global] Instance TileData_eq_dec : EqDecision TileData.
Proof. solve_decision. Defined.

(** * Part I: the model *)

(** ** JS built-ins used by the component *)

Module JS.

(** [s.split('')] *)
Definition split (s : string) : list string :=
  (λ c, String c EmptyString) <$> String.list_ascii_of_string s.

(** [arr.join('')] *)
Definition join (arr : list string) : string := String.concat "" arr.

(** [arr.indexOf(x)]: first index holding a value [=== x]; [None] is -1. *)
Fixpoint indexOf (arr : list string) (x : string) : option nat :=
  match arr with
  | [] => None
  | y :: rest => if decide (y = x) then Some 0 else S <$> indexOf rest x
  end.

(** What running a piece of JS code can end in. *)
Inductive Outcome (A : Type) :=
| Returns (a : A)
| TypeError
| SparseArray.
Arguments Returns {A} a.
Arguments TypeError {A}.
Arguments SparseArray {A}.

Definition bind {A B} (o : Outcome A) (f : A → Outcome B) : Outcome B :=
  match o with
  | Returns a => f a
  | TypeError => TypeError
  | SparseArray => SparseArray
  end.

(** [indices.forEach(i => body(i))] over a mutable scratch state; an
    exception in the callback leaves the loop. *)
Fixpoint forEach {St} (body : nat → St → Outcome St) (indices : list nat) (s : St)
  : Outcome St :=
  match indices with
  | [] => Returns s
  | i :: rest => bind (body i s) (forEach body rest)
  end.

(** [arr[i] = x] on a dense array. *)
Definition assign {A} (arr : list A) (i : nat) (x : A) : Outcome (list A) :=
  if decide (i < length arr) then Returns (<[i:=x]> arr)
  else if decide (i = length arr) then Returns (arr ++ [x])
  else SparseArray.

End JS.

Import JS.

(** ** src/App.tsx: constants *)

Definition MAX_GUESSES : nat := 5.
Definition WORD_LENGTH : nat := 5.

(** ** Checking a guess against the secret word (handleEnter, lines 111-137) *)

(** The three arrays the two passes work on. *)
Record Scratch := mkScratch {
  rowTiles : list TileData;
  secretArr : list string;
  guessArr : list string
}.

(** Body of the first [forEach]: [ch] is the callback's [char], that is
    [guessArr[i]] as read when the loop reaches index [i]. *)
Definition firstPass_body (i : nat) (s : Scratch) : Outcome Scratch :=
  match guessArr s !! i with
  | None => Returns s
  | Some ch =>
      if decide (secretArr s !! i = Some ch) then
        match rowTiles s !! i with
        | None => TypeError
        | Some t =>
            Returns {| rowTiles := <[i := mkTile (char t) CORRECT]> (rowTiles s);
                       secretArr := <[i := ""]> (secretArr s);
                       guessArr := <[i := ""]> (guessArr s) |}
        end
      else Returns s
  end.

(** First pass: Correct (Green). *)
Definition firstPass (s : Scratch) : Outcome Scratch :=
  forEach firstPass_body (seq 0 (length (guessArr s))) s.

(** Second pass: Present (Yellow) or Absent (Gray).  The callback mutates
    the tile it is given and the shared [secretArr]. *)
Fixpoint secondPass (tiles : list TileData) (secretArr : list string)
  : list TileData * list string :=
  match tiles with
  | [] => ([], secretArr)
  | tile :: rest =>
      if decide (state tile ≠ CORRECT) then
        match indexOf secretArr (char tile) with
        | Some indexInSecret =>
            let '(rest', sa) := secondPass rest (<[indexInSecret := ""]> secretArr) in
            (mkTile (char tile) PRESENT :: rest', sa)
        | None =>
            let '(rest', sa) := secondPass rest secretArr in
            (mkTile (char tile) ABSENT :: rest', sa)
        end
      else
        let '(rest', sa) := secondPass rest secretArr in
        (tile :: rest', sa)
  end.

(** Lines 112-137 as a function of the closure's [secretWord], the guess
    read from the row and the row itself; the result is [rowTiles]. *)
Definition checkGuess (secretWord currentGuess : string) (row : list TileData)
  : Outcome (list TileData) :=
  bind (firstPass {| rowTiles := row;
                     secretArr := split secretWord;
                     guessArr := split currentGuess |})
       (λ s, Returns (secondPass (rowTiles s) (secretArr s)).1).

(** [grid[currentRow].map(t => t.char).join('')] *)
Definition guessOfRow (row : list TileData) : string := join (char <$> row).

(** ** The component's state (the [useState] cells of [App]) *)

Record State := mkState {
  secretWord : string;
  grid : GridData;
  currentRow : nat;
  currentCol : nat;
  gameStatus : GameStatus;
  shakeRow : bool;
  message : option string;
  isDarkMode : bool;
  letterStates : gmap string LetterState
}.

(** The setters, one per cell. *)
Definition setSecretWord (w : string) (st : State) : State :=
  mkState w (grid st) (currentRow st) (currentCol st) (gameStatus st)
          (shakeRow st) (message st) (isDarkMode st) (letterStates st).
Definition setGrid (g : GridData) (st : State) : State :=
  mkState (secretWord st) g (currentRow st) (currentCol st) (gameStatus st)
          (shakeRow st) (message st) (isDarkMode st) (letterStates st).
Definition setCurrentRow (r : nat) (st : State) : State :=
  mkState (secretWord st) (grid st) r (currentCol st) (gameStatus st)
          (shakeRow st) (message st) (isDarkMode st) (letterStates st).
Definition setCurrentCol (c : nat) (st : State) : State :=
  mkState (secretWord st) (grid st) (currentRow st) c (gameStatus st)
          (shakeRow st) (message st) (isDarkMode st) (letterStates st).
Definition setGameStatus (g : GameStatus) (st : State) : State :=
  mkState (secretWord st) (grid st) (currentRow st) (currentCol st) g
          (shakeRow st) (message st) (isDarkMode st) (letterStates st).
Definition setShakeRow (b : bool) (st : State) : State :=
  mkState (secretWord st) (grid st) (currentRow st) (currentCol st) (gameStatus st)
          b (message st) (isDarkMode st) (letterStates st).
Definition setMessage (m : option string) (st : State) : State :=
  mkState (secretWord st) (grid st) (currentRow st) (currentCol st) (gameStatus st)
          (shakeRow st) m (isDarkMode st) (letterStates st).
Definition setLetterStates (l : gmap string LetterState) (st : State) : State :=
  mkState (secretWord st) (grid st) (currentRow st) (currentCol st) (gameStatus st)
          (shakeRow st) (message st) (isDarkMode st) l.

(** The initial values of the [useState] cells. *)
Definition mountState : State :=
  mkState "" [] 0 0 LOADING false None false ∅.

(** A callback handed to [setTimeout]. *)
Record Timer := mkTimer { delay : nat; callback : State → State }.

(** [() => { setShakeRow(false); setMessage(null); }] *)
Definition clearSignal (st : State) : State := setMessage None (setShakeRow false st).

(** What calling a handler amounts to: it runs to its end, or it stops at
    an [await] on one of the two functions of ./services/gemini. *)
Inductive Run :=
| Done (o : Outcome State) (timers : list Timer)
| AwaitValidate (currentGuess : string) (pending : State) (resume : bool → State → Run)
| AwaitFetch (len : nat) (pending : State) (resume : string → State → Run).

(** ** initGame (lines 29-47) *)

Definition emptyTile : TileData := mkTile "" INITIAL.

Definition newGrid : GridData := replicate MAX_GUESSES (replicate WORD_LENGTH emptyTile).

Definition initGame_reset (st : State) : State :=
  setGrid newGrid
    (setLetterStates ∅
      (setShakeRow false
        (setCurrentCol 0
          (setCurrentRow 0
            (setMessage None
              (setGameStatus LOADING st)))))).

Definition initGame_resume (word : string) (now : State) : Run :=
  Done (Returns (setGameStatus PLAYING (setSecretWord word now))) [].

Definition initGame (st : State) : Run :=
  AwaitFetch WORD_LENGTH (initGame_reset st) initGame_resume.

(** ** handleKeyInput (lines 56-69) *)

Definition handleKeyInput (key : string) (st : State) : Outcome State :=
  if decide (gameStatus st ≠ PLAYING) then Returns st
  else if decide (WORD_LENGTH ≤ currentCol st) then Returns st
  else
    match grid st !! currentRow st with
    | None => TypeError
    | Some row =>
        bind (assign row (currentCol st) (mkTile key INITIAL)) (λ newRow,
          Returns (setCurrentCol (currentCol st + 1)
                    (setGrid (<[currentRow st := newRow]> (grid st)) st)))
    end.

(** ** handleDelete (lines 71-83) *)

Definition handleDelete (st : State) : Outcome State :=
  if decide (gameStatus st ≠ PLAYING) then Returns st
  else if decide (currentCol st ≤ 0) then Returns st
  else
    match grid st !! currentRow st with
    | None => TypeError
    | Some row =>
        bind (assign row (currentCol st - 1) (mkTile "" INITIAL)) (λ newRow,
          Returns (setCurrentCol (currentCol st - 1)
                    (setGrid (<[currentRow st := newRow]> (grid st)) st)))
    end.

(** ** handleEnter (lines 85-178) *)

(** Update keyboard states (lines 143-157): the callback of
    [rowTiles.forEach], then the whole updater.  [!currentState] holds
    exactly when the key is missing: every [LetterState] is a non-empty
    string. *)
Definition upgradeLetter (next : gmap string LetterState) (tile : TileData)
  : gmap string LetterState :=
  let currentState := next !! char tile in
  if decide (state tile = CORRECT) then <[char tile := CORRECT]> next
  else if decide (state tile = PRESENT ∧ currentState ≠ Some CORRECT)
       then <[char tile := PRESENT]> next
  else if decide (state tile = ABSENT ∧ currentState = None)
       then <[char tile := ABSENT]> next
  else next.

Definition updateLetterStates (prev : gmap string LetterState) (rowTiles : list TileData)
  : gmap string LetterState :=
  foldl upgradeLetter prev rowTiles.

(** Check Win/Loss (lines 159-176); [st] is the state the closure was made
    from, [now] the state the setters act on.  The confetti call is
    presentation only. *)
Definition checkWinLoss (st : State) (currentGuess : string) (now : State) : State :=
  if decide (currentGuess = secretWord st) then
    setMessage (Some "SPLENDID") (setGameStatus WON now)
  else if decide (currentRow st = MAX_GUESSES - 1) then
    setMessage (Some (secretWord st)) (setGameStatus LOST now)
  else
    setCurrentCol 0 (setCurrentRow (currentRow now + 1) (setGameStatus PLAYING now)).

(** The code after [await validateWordExistence(currentGuess)]. *)
Definition handleEnter_resume (st : State) (row : list TileData) (currentGuess : string)
    (isValid : bool) (now : State) : Run :=
  if negb isValid then
    Done (Returns (setMessage (Some "Not a valid word")
                    (setShakeRow true (setGameStatus PLAYING now))))
         [mkTimer 1000 clearSignal]
  else
    Done (bind (checkGuess (secretWord st) currentGuess row) (λ rowTiles,
            let now1 := setGrid (<[currentRow st := rowTiles]> (grid st)) now in
            let now2 := setLetterStates
                          (updateLetterStates (letterStates now1) rowTiles) now1 in
            Returns (checkWinLoss st currentGuess now2)))
         [].

Definition handleEnter (st : State) : Run :=
  if decide (gameStatus st ≠ PLAYING) then Done (Returns st) []
  else if decide (currentCol st < WORD_LENGTH) then
    Done (Returns (setMessage (Some "Too short") (setShakeRow true st)))
         [mkTimer 500 clearSignal]
  else
    match grid st !! currentRow st with
    | None => Done TypeError []
    | Some row =>
        let currentGuess := guessOfRow row in
        AwaitValidate currentGuess (setGameStatus VALIDATING st)
                      (handleEnter_resume st row currentGuess)
    end.

(** ** Physical keyboard listener (lines 181-201) *)

Record KeyboardEvent := mkKeyboardEvent {
  ctrlKey : bool;
  metaKey : bool;
  altKey : bool;
  key : string
}.

(** [/^[A-Z]$/.test(s)]: without the [m] flag, exactly the strings made of
    one character between A and Z. *)
Definition test_A_Z (s : string) : bool :=
  match s with
  | String c EmptyString =>
      bool_decide (65 ≤ Ascii.nat_of_ascii c ∧ Ascii.nat_of_ascii c ≤ 90)
  | _ => false
  end.

Section KeyDown.

(** [String.prototype.toUpperCase], a built-in taken as given. *)
Variable toUpperCase : string → string.

Definition handleKeyDown (e : KeyboardEvent) (st : State) : Run :=
  if ctrlKey e || metaKey e || altKey e then Done (Returns st) []
  else
    let upper := toUpperCase (key e) in
    if decide (upper = "ENTER") then
      if decide (gameStatus st = WON ∨ gameStatus st = LOST) then initGame st
      else handleEnter st
    else if decide (upper = "BACKSPACE") then Done (handleDelete st) []
    else if test_A_Z upper then Done (handleKeyInput upper st) []
    else Done (Returns st) [].

End KeyDown.

(** ** The provider answering at once *)

(** The three intents of a player.  A typed character is a single one, as
    [handleKeyDown] lets through; a submit comes with the answer
    validateWordExistence will give. *)
Inductive Intent :=
| TypeChar (c : Ascii.ascii)
| Delete
| Submit (isValid : bool).

(** Runs a handler to its end, resuming each [await] on the state it was
    left in. *)
Fixpoint settle (isValid : bool) (word : string) (r : Run) : Outcome State :=
  match r with
  | Done o _ => o
  | AwaitValidate _ pending resume => settle isValid word (resume isValid pending)
  | AwaitFetch _ pending resume => settle isValid word (resume word pending)
  end.

Definition perform (i : Intent) (st : State) : Outcome State :=
  match i with
  | TypeChar c => handleKeyInput (String c "") st
  | Delete => handleDelete st
  | Submit isValid => settle isValid "" (handleEnter st)
  end.

Fixpoint play (intents : list Intent) (st : State) : Outcome State :=
  match intents with
  | [] => Returns st
  | i :: rest => bind (perform i st) (play rest)
  end.

(** The state once [initGame], called at mount, has received [word]. *)
Definition startState (word : string) : State :=
  setGameStatus PLAYING (setSecretWord word (initGame_reset mountState)).

(** * Part II: vocabulary of the properties *)

(** Number of elements of an array that satisfy [P]. *)
Definition countWhere {A} (P : A → Prop) `{∀ x, Decision (P x)} (l : list A) : nat :=
  length (filter P l).

Definition indicator {A} (P : A → Prop) `{∀ x, Decision (P x)} (x : A) : nat :=
  if decide (P x) then 1 else 0.

(** [count(L, S)]: occurrences of the letter [L] in the word [S]. *)
Definition occurrences (L : string) (S : string) : nat :=
  countWhere (λ c, c = L) (split S).

(** A tile that credits the letter [L]: it shows [L] and is PRESENT or
    CORRECT. *)
Definition credits (L : string) (t : TileData) : Prop :=
  char t = L ∧ (state t = PRESENT ∨ state t = CORRECT).

#[global] Instance credits_dec L t : Decision (credits L t).
Proof. unfold credits. apply _. Defined.

(** Tiles crediting [L] plus entries of [secretArr] still equal to [L]. *)
Definition budget (L : string) (tiles : list TileData) (secretArr : list string) : nat :=
  countWhere (credits L) tiles + countWhere (λ c, c = L) secretArr.

(** The row a player has typed [w] into, one letter per tile. *)
Definition tilesOf (w : string) : list TileData :=
  (λ c, mkTile c INITIAL) <$> split w.

(** A row as the player leaves it before submitting: one letter per tile,
    nothing evaluated yet. *)
Definition typedRow (row : list TileData) : Prop :=
  Forall (λ t, String.length (char t) = 1 ∧ state t = INITIAL) row.

Definition markCorrect (t : TileData) : TileData := mkTile (char t) CORRECT.

(** [grid[r][k]] *)
Definition tileAt (g : GridData) (r k : nat) : option TileData :=
  g !! r ≫= λ row, row !! k.

(** The grid [initGame] builds keeps its dimensions, and the cursor stays
    inside it. *)
Definition wellFormed (st : State) : Prop :=
  length (grid st) = MAX_GUESSES
  ∧ Forall (λ row : list TileData, length row = WORD_LENGTH) (grid st)
  ∧ currentRow st < MAX_GUESSES
  ∧ currentCol st ≤ WORD_LENGTH.

(** What holds while a game is on: the state is well formed and, as long as
    the status is PLAYING, the rows from the current one on carry no
    evaluation and the current row holds one character in each tile before
    the cursor. *)
Definition playable (st : State) : Prop :=
  wellFormed st
  ∧ (gameStatus st = PLAYING →
     (∀ r row, currentRow st ≤ r → grid st !! r = Some row →
               Forall (λ t, state t = INITIAL) row)
     ∧ (∀ row k t, grid st !! currentRow st = Some row → row !! k = Some t →
                   k < currentCol st → String.length (char t) = 1)).

(** Whether a handler stopped at [await validateWordExistence(...)]. *)
Definition callsValidation (r : Run) : Prop :=
  match r with
  | AwaitValidate _ _ _ => True
  | _ => False
  end.

(** Initial < Absent < Present < Correct; a letter without an entry shows
    as INITIAL. *)
Definition rank (s : option LetterState) : nat :=
  match s with
  | None | Some INITIAL => 0
  | Some ABSENT => 1
  | Some PRESENT => 2
  | Some CORRECT => 3
  end.

(** ** Inputs for the examples *)

(** [toUpperCase] on the ASCII range. *)
Definition asciiUpper (c : Ascii.ascii) : Ascii.ascii :=
  let n := Ascii.nat_of_ascii c in
  if bool_decide (97 ≤ n ∧ n ≤ 122) then Ascii.ascii_of_nat (n - 32) else c.

Fixpoint asciiToUpperCase (s : string) : string :=
  match s with
  | EmptyString => EmptyString
  | String c rest => String (asciiUpper c) (asciiToUpperCase rest)
  end.

(** A fresh game in which the first row holds the typed word [w]. *)
Definition typedState (secret w : string) : State :=
  setCurrentCol (String.length w)
    (setGrid (<[0 := tilesOf w ++ replicate (WORD_LENGTH - String.length w) emptyTile]> newGrid)
       (startState secret)).

Definition typeWord (w : string) : list Intent :=
  TypeChar <$> String.list_ascii_of_string w.

Definition rowStates (o : Outcome (list TileData)) : option (list LetterState) :=
  match o with
  | Returns tiles => Some (state <$> tiles)
  | _ => None
  end.

Definition stateOf (o : Outcome State) : option State :=
  match o with
  | Returns st => Some st
  | _ => None
  end.

(** * Part I, continued: what is rendered, and the events of a session *)

(** ** src/components/Controls.tsx *)

(** The button is rendered only when the game is over; the result is its
    label.  Its [onClick] is [onNext], which [App] binds to [initGame]. *)
Definition Controls (status : GameStatus) : option string :=
  if decide (status = WON ∨ status = LOST) then
    Some (if decide (status = WON) then "Play Again" else "Try Again")
  else None.

(** ** The Grid component (lines 14-28 of its file) *)

(** [isRevealed={rowIndex < currentRow}] *)
Definition isRevealed (currentRow rowIndex : nat) : bool :=
  bool_decide (rowIndex < currentRow).

(** ** The render of [App] (line 216) *)

(** [MAX_GUESSES - currentRow], a subtraction of JS numbers. *)
Definition guessesLeft (st : State) : Z :=
  (Z.of_nat MAX_GUESSES - Z.of_nat (currentRow st))%Z.

(** The header line: [None] stands for the text LOADING..., [Some n] for
    GUESSES LEFT: n. *)
Definition header (st : State) : option Z :=
  if decide (gameStatus st = LOADING) then None else Some (guessesLeft st).

(** ** A session at the physical keyboard *)

(** What can happen to the mounted component: a key goes down, the button of
    [Controls] is clicked, a timer set by [handleEnter] fires. *)
Inductive UIEvent :=
| KeyDown (e : KeyboardEvent)
| ClickNext
| Timeout.

(** What the two functions of ./services/gemini answer, should the handler
    of an event call one of them. *)
Record Provider := mkProvider { validates : bool; fetches : string }.

Section Session.

Variable toUpperCase : string → string.

(** The handler an event reaches.  A click reaches [initGame] only when the
    button is there. *)
Definition dispatch (ev : UIEvent) (st : State) : Run :=
  match ev with
  | KeyDown e => handleKeyDown toUpperCase e st
  | ClickNext =>
      match Controls (gameStatus st) with
      | Some _ => initGame st
      | None => Done (Returns st) []
      end
  | Timeout => Done (Returns (clearSignal st)) []
  end.

Definition react (ev : UIEvent) (p : Provider) (st : State) : Outcome State :=
  settle (validates p) (fetches p) (dispatch ev st).

Fixpoint session (evs : list (UIEvent * Provider)) (st : State) : Outcome State :=
  match evs with
  | [] => Returns st
  | (ev, p) :: rest => bind (react ev p st) (session rest)
  end.

End Session.

(** * Part II, continued: vocabulary of the further properties *)

(** Tiles showing [L] that the first pass has claimed, and those it has
    not. *)
Definition claimed (L : string) (t : TileData) : Prop :=
  char t = L ∧ state t = CORRECT.

Definition unclaimed (L : string) (t : TileData) : Prop :=
  char t = L ∧ state t ≠ CORRECT.

#[global] Instance claimed_dec L t : Decision (claimed L t).
Proof. unfold claimed. apply _. Defined.

#[global] Instance unclaimed_dec L t : Decision (unclaimed L t).
Proof. unfold unclaimed. apply _. Defined.

(** The best state, as a rank, that a tile showing [L] has among [tiles];
    0 when no tile shows [L]. *)
Fixpoint bestRank (L : string) (tiles : list TileData) : nat :=
  match tiles with
  | [] => 0
  | t :: rest =>
      if decide (char t = L) then rank (Some (state t)) `max` bestRank L rest
      else bestRank L rest
  end.

(** What a finished game shows: after a loss the last row, which does not
    spell the secret word; after a win a row that spells it, all CORRECT. *)
Definition verdict (st : State) : Prop :=
  (gameStatus st = LOST →
   currentRow st = MAX_GUESSES - 1
   ∧ ∀ row, grid st !! currentRow st = Some row → guessOfRow row ≠ secretWord st)
  ∧ (gameStatus st = WON →
     ∀ row, grid st !! currentRow st = Some row →
       guessOfRow row = secretWord st ∧ Forall (λ t, state t = CORRECT) row).

(** The state as a session at the keyboard keeps it once a provider call
    has been answered: no call is pending, and the grid holds evaluated
    letters above the current row, typed letters before the cursor, empty
    tiles from the cursor on; after a win or a loss the current row is
    evaluated too. *)
Definition tidy (st : State) : Prop :=
  wellFormed st
  ∧ (gameStatus st = PLAYING ∨ gameStatus st = WON ∨ gameStatus st = LOST)
  ∧ verdict st
  ∧ ∀ r row k t, grid st !! r = Some row → row !! k = Some t →
      (r < currentRow st → test_A_Z (char t) = true ∧ state t ≠ INITIAL)
      ∧ (currentRow st < r → t = emptyTile)
      ∧ (r = currentRow st →
           if decide (gameStatus st = WON ∨ gameStatus st = LOST)
           then test_A_Z (char t) = true ∧ state t ≠ INITIAL
           else (k < currentCol st → test_A_Z (char t) = true ∧ state t = INITIAL)
                ∧ (currentCol st ≤ k → t = emptyTile)).

(** A key event without modifiers. *)
Definition plainKey (k : string) : KeyboardEvent := mkKeyboardEvent false false false k.

(** The events of typing [w] at the keyboard, the provider answering
    [valid] and [word] whenever asked. *)
Definition keystrokes (ks : list string) (valid : bool) (word : string)
  : list (UIEvent * Provider) :=
  (λ k, (KeyDown (plainKey k), mkProvider valid word)) <$> ks.

(** The test of the first pass at index [j]: [guessArr[j]] is there and
    [=== secretArr[j]]. *)
Definition matchesAt (s : Scratch) (j : nat) : Prop :=
  is_Some (guessArr s !! j) ∧ secretArr s !! j = guessArr s !! j.

#[global] Instance matchesAt_dec s j : Decision (matchesAt s j).
Proof. unfold matchesAt. apply _. Defined.

(** The rows of the grid that have been evaluated: those above the current
    row, and the current row too once the game is over. *)
Definition evaluatedRows (st : State) : GridData :=
  take (if decide (gameStatus st = WON ∨ gameStatus st = LOST)
        then currentRow st + 1 else currentRow st)
       (grid st).

(** The keyboard hints are what the keyboard update makes of the evaluated
    rows of the grid, taken in order from the empty mapping. *)
Definition hintsAgree (st : State) : Prop :=
  letterStates st = foldl updateLetterStates ∅ (evaluatedRows st).

(** * Part III: lemmas *)

(** ** Scenarios of the specification, run on the model *)

Example checkGuess_CRAZY :
  rowStates (checkGuess "CRANE" "CRAZY" (tilesOf "CRAZY"))
  = Some [CORRECT; CORRECT; CORRECT; ABSENT; ABSENT].
Proof. reflexivity. Qed.

Example checkGuess_REACT :
  rowStates (checkGuess "CRANE" "REACT" (tilesOf "REACT"))
  = Some [PRESENT; PRESENT; CORRECT; PRESENT; ABSENT].
Proof. reflexivity. Qed.

Example submit_CAT_too_short :
  stateOf (play (typeWord "CAT" ++ [Submit true]) (startState "CRANE"))
  = Some (setMessage (Some "Too short") (setShakeRow true (typedState "CRANE" "CAT"))).
Proof. reflexivity. Qed.

(** ** Counting *)

Section CountWhere.
Context {A : Type} (P : A → Prop) `{∀ x, Decision (P x)}.

Lemma countWhere_nil : countWhere P [] = 0.
Proof. reflexivity. Qed.

Lemma countWhere_cons x l : countWhere P (x :: l) = indicator P x + countWhere P l.
Proof.
  unfold countWhere, indicator. rewrite filter_cons.
  destruct (decide (P x)); reflexivity.
Qed.

(** Overwriting one element moves the count by the two indicators. *)
Lemma countWhere_insert l i x y :
  l !! i = Some x →
  countWhere P (<[i:=y]> l) + indicator P x = countWhere P l + indicator P y.
Proof.
  revert i. induction l as [|z l IH]; intros [|i] Hi; simplify_eq/=.
  - rewrite !countWhere_cons. lia.
  - rewrite !countWhere_cons. specialize (IH _ Hi). lia.
Qed.

Lemma countWhere_none l : Forall (λ x, ¬ P x) l → countWhere P l = 0.
Proof.
  induction 1 as [|x l Hx _ IH]; [reflexivity|].
  rewrite countWhere_cons, IH. unfold indicator. by rewrite decide_False.
Qed.

End CountWhere.

(** ** Strings and arrays *)

Lemma split_cons c s : split (String c s) = String c "" :: split s.
Proof. reflexivity. Qed.

Lemma join_cons_char c l : join (String c "" :: l) = String c (join l).
Proof. unfold join. destruct l; reflexivity. Qed.

Lemma join_split s : join (split s) = s.
Proof.
  induction s as [|c s IH]; [reflexivity|].
  by rewrite split_cons, join_cons_char, IH.
Qed.

(** A row of one-character tiles is read back letter by letter. *)
Lemma split_join chars :
  Forall (λ c, String.length c = 1) chars → split (join chars) = chars.
Proof.
  induction 1 as [|c l Hc _ IH]; [reflexivity|].
  destruct c as [|a [|??]]; simplify_eq/=.
  by rewrite join_cons_char, split_cons, IH.
Qed.

Lemma split_single s : Forall (λ c, String.length c = 1) (split s).
Proof. induction s; constructor; auto. Qed.

Lemma indexOf_Some arr x i : indexOf arr x = Some i → arr !! i = Some x.
Proof.
  revert i. induction arr as [|y arr IH]; intros i Hi; simplify_eq/=.
  destruct (decide (y = x)); simplify_eq/=; [done|].
  destruct (indexOf arr x) eqn:E; simplify_eq/=. by apply IH.
Qed.

Lemma assign_in_range {A} (arr : list A) i x :
  i < length arr → assign arr i x = Returns (<[i:=x]> arr).
Proof. intros Hi. unfold assign. by rewrite decide_True. Qed.

Lemma forEach_invariant {St} (P : St → Prop) body indices : ∀ s s',
  (∀ i s s', P s → body i s = Returns s' → P s') →
  P s → forEach body indices s = Returns s' → P s'.
Proof.
  induction indices as [|i rest IH]; intros s s' Hbody Hs Hrun; simplify_eq/=; [done|].
  destruct (body i s) as [s1| |] eqn:Hs1; simplify_eq/=.
  eapply IH; [exact Hbody| |exact Hrun]. eauto.
Qed.

Lemma tileAt_insert_eq (g : GridData) r k row t :
  r < length g → k < length row →
  tileAt (<[r := <[k := t]> row]> g) r k = Some t.
Proof.
  intros Hr Hk. unfold tileAt.
  rewrite list_lookup_insert_eq by done. simpl. by apply list_lookup_insert_eq.
Qed.

Lemma tileAt_insert_ne (g : GridData) r k row t r' k' :
  g !! r = Some row → (r', k') ≠ (r, k) →
  tileAt (<[r := <[k := t]> row]> g) r' k' = tileAt g r' k'.
Proof.
  intros Hrow Hne. unfold tileAt.
  destruct (decide (r' = r)) as [->|Hr].
  - rewrite list_lookup_insert_eq by (by eapply lookup_lt_Some). rewrite Hrow. simpl.
    apply list_lookup_insert_ne. congruence.
  - by rewrite list_lookup_insert_ne.
Qed.

(** ** The two passes *)

(** Neither pass moves or rewrites a letter. *)
Lemma firstPass_body_chars i s s' :
  firstPass_body i s = Returns s' → char <$> rowTiles s' = char <$> rowTiles s.
Proof.
  unfold firstPass_body. intros Hrun.
  destruct (guessArr s !! i) as [ch|]; simplify_eq/=; [|done].
  case_decide; simplify_eq/=; [|done].
  destruct (rowTiles s !! i) as [t|] eqn:Ht; simplify_eq/=.
  rewrite list_fmap_insert. apply list_insert_id. by rewrite list_lookup_fmap, Ht.
Qed.

Lemma firstPass_chars s s' :
  firstPass s = Returns s' → char <$> rowTiles s' = char <$> rowTiles s.
Proof.
  unfold firstPass. intros Hrun.
  eapply (forEach_invariant (λ x, char <$> rowTiles x = char <$> rowTiles s));
    [|reflexivity|exact Hrun].
  intros i s1 s2 Hs1 Hstep. by rewrite (firstPass_body_chars _ _ _ Hstep).
Qed.

Lemma secondPass_chars tiles : ∀ sa, char <$> (secondPass tiles sa).1 = char <$> tiles.
Proof.
  induction tiles as [|t tiles IH]; intros sa; [reflexivity|]. simpl.
  case_decide.
  - destruct (indexOf sa (char t)) as [idx|].
    + specialize (IH (<[idx:=""]> sa)). destruct (secondPass tiles _). simpl in *. by f_equal.
    + specialize (IH sa). destruct (secondPass tiles _). simpl in *. by f_equal.
  - specialize (IH sa). destruct (secondPass tiles _). simpl in *. by f_equal.
Qed.

Lemma checkGuess_chars S G row tiles :
  checkGuess S G row = Returns tiles → char <$> tiles = char <$> row.
Proof.
  unfold checkGuess. intros Hrun.
  destruct (firstPass _) as [s'| |] eqn:Hfirst; simplify_eq/=.
  rewrite secondPass_chars. by rewrite (firstPass_chars _ _ Hfirst).
Qed.

Lemma checkGuess_length S G row tiles :
  checkGuess S G row = Returns tiles → length tiles = length row.
Proof.
  intros Hrun. apply checkGuess_chars in Hrun.
  by rewrite <- (length_fmap char), Hrun, length_fmap.
Qed.

(** *** The credit of a letter stays within what the secret still offers *)

Section Passes.
Variable L : string.
Hypothesis L_letter : L ≠ "".

Lemma budget_claim tiles sa i idx t st' :
  tiles !! i = Some t →
  sa !! idx = Some (char t) →
  budget L (<[i := mkTile (char t) st']> tiles) (<[idx := ""]> sa) ≤ budget L tiles sa.
Proof using L_letter.
  intros Ht Hsa. unfold budget.
  pose proof (countWhere_insert (credits L) tiles i t (mkTile (char t) st') Ht) as H1.
  pose proof (countWhere_insert (λ c, c = L) sa idx (char t) "" Hsa) as H2.
  unfold indicator in H1, H2.
  rewrite (decide_False (P := "" = L)) in H2 by done.
  destruct (decide (char t = L)) as [Heq|Hne].
  - destruct (decide (credits L t)), (decide (credits L (mkTile (char t) st'))); lia.
  - rewrite (decide_False (P := credits L (mkTile _ _))) in H1 by (by intros [? _]).
    lia.
Qed.

Lemma budget_absent tiles sa i t :
  tiles !! i = Some t →
  budget L (<[i := mkTile (char t) ABSENT]> tiles) sa ≤ budget L tiles sa.
Proof.
  intros Ht. unfold budget.
  pose proof (countWhere_insert (credits L) tiles i t (mkTile (char t) ABSENT) Ht) as H1.
  unfold indicator in H1.
  rewrite (decide_False (P := credits L (mkTile _ _))) in H1
    by (by intros [_ [?|?]]).
  lia.
Qed.

(** One turn of the first loop, at an index whose guess letter is still the
    letter of the tile. *)
Lemma firstPass_body_step i s :
  guessArr s !! i = (char <$> rowTiles s) !! i →
  i < length (rowTiles s) →
  ∃ s', firstPass_body i s = Returns s'
        ∧ (∀ j, j ≠ i → guessArr s' !! j = guessArr s !! j)
        ∧ budget L (rowTiles s') (secretArr s') ≤ budget L (rowTiles s) (secretArr s).
Proof using L_letter.
  intros Hg Hi.
  destruct (lookup_lt_is_Some_2 _ _ Hi) as [t Ht].
  rewrite list_lookup_fmap, Ht in Hg. simpl in Hg.
  unfold firstPass_body. rewrite Hg, Ht.
  case_decide as Hs.
  - eexists. split; [reflexivity|]. simpl. split.
    + intros j Hj. by apply list_lookup_insert_ne.
    + by apply budget_claim.
  - exists s. auto.
Qed.

Lemma firstPass_loop n : ∀ a s,
  (∀ j, a ≤ j → guessArr s !! j = (char <$> rowTiles s) !! j) →
  a + n ≤ length (rowTiles s) →
  ∃ s', forEach firstPass_body (seq a n) s = Returns s'
        ∧ budget L (rowTiles s') (secretArr s') ≤ budget L (rowTiles s) (secretArr s).
Proof using L_letter.
  induction n as [|n IH]; intros a s Hg Hlen.
  - exists s. auto.
  - destruct (firstPass_body_step a s) as (s1 & Hs1 & Hgs & Hb); [by apply Hg|lia|].
    pose proof (firstPass_body_chars _ _ _ Hs1) as Hch.
    assert (length (rowTiles s1) = length (rowTiles s)) as Hl.
    { by rewrite <- (length_fmap char), Hch, length_fmap. }
    destruct (IH (S a) s1) as (s' & Hs' & Hb').
    + intros j Hj. rewrite Hgs, Hch by lia. apply Hg. lia.
    + lia.
    + exists s'. simpl. rewrite Hs1. simpl. split; [done|lia].
Qed.

Lemma secondPass_budget tiles : ∀ sa,
  budget L (secondPass tiles sa).1 (secondPass tiles sa).2 ≤ budget L tiles sa.
Proof using L_letter.
  induction tiles as [|t tiles IH]; intros sa; [reflexivity|]. simpl.
  case_decide as Hst.
  - destruct (indexOf sa (char t)) as [idx|] eqn:Hidx.
    + apply indexOf_Some in Hidx.
      specialize (IH (<[idx:=""]> sa)). destruct (secondPass tiles _) as [r sa']. simpl in *.
      pose proof (budget_claim [t] sa 0 idx t PRESENT eq_refl Hidx) as Hc.
      unfold budget in *. simpl in Hc. rewrite !countWhere_cons in *.
      rewrite countWhere_nil in Hc. lia.
    + specialize (IH sa). destruct (secondPass tiles _) as [r sa']. simpl in *.
      pose proof (budget_absent [t] sa 0 t eq_refl) as Hc.
      unfold budget in *. simpl in Hc. rewrite !countWhere_cons in *.
      rewrite countWhere_nil in Hc. lia.
  - specialize (IH sa). destruct (secondPass tiles _) as [r sa']. simpl in *.
    unfold budget in *. rewrite !countWhere_cons. lia.
Qed.

End Passes.

Lemma typedRow_tilesOf w : typedRow (tilesOf w).
Proof.
  unfold typedRow, tilesOf. apply Forall_fmap.
  eapply Forall_impl; [apply split_single|]. simpl. auto.
Qed.

Lemma chars_tilesOf w : char <$> tilesOf w = split w.
Proof.
  unfold tilesOf. rewrite <- list_fmap_compose. apply list_fmap_id.
Qed.

Lemma guessOfRow_tilesOf w : guessOfRow (tilesOf w) = w.
Proof. unfold guessOfRow. by rewrite chars_tilesOf, join_split. Qed.

Lemma typedRow_guessArr row : typedRow row → split (guessOfRow row) = char <$> row.
Proof.
  intros Hrow. unfold guessOfRow. apply split_join.
  apply Forall_fmap. eapply Forall_impl; [exact Hrow|]. by intros t [Hlen _].
Qed.

Lemma checkGuess_row_bound_letter (L S : string) (row : list TileData) :
  typedRow row →
  ∃ tiles, checkGuess S (guessOfRow row) row = Returns tiles
           ∧ countWhere (credits L) tiles ≤ occurrences L S.
Proof.
  intros Hrow.
  pose (s0 := {| rowTiles := row; secretArr := split S; guessArr := split (guessOfRow row) |}).
  assert (guessArr s0 = char <$> rowTiles s0) as Hg by (by apply typedRow_guessArr).
  assert (∀ L', L' ≠ "" →
    ∃ s', firstPass s0 = Returns s'
          ∧ budget L' (rowTiles s') (secretArr s') ≤ occurrences L' S) as Hfirst.
  { intros L' HL'. unfold firstPass.
    destruct (firstPass_loop L' HL' (length (guessArr s0)) 0 s0) as (s' & Hs' & Hb).
    - intros j _. by rewrite Hg.
    - rewrite Hg, length_fmap. simpl. lia.
    - exists s'. split; [done|].
      etrans; [exact Hb|]. unfold budget, occurrences. simpl.
      rewrite countWhere_none; [lia|].
      eapply Forall_impl; [exact Hrow|].
      intros t [_ Hst] [_ [?|?]]; congruence. }
  unfold checkGuess. fold s0.
  destruct (decide (L = "")) as [->|HL].
  - destruct (Hfirst "A") as (s' & Hrun & _); [done|]. rewrite Hrun. simpl.
    eexists. split; [reflexivity|].
    rewrite countWhere_none; [lia|].
    apply Forall_forall. intros t Ht [Hc _].
    assert (char t ∈ char <$> row) as Hin.
    { change row with (rowTiles s0).
      rewrite <- (firstPass_chars _ _ Hrun),
              <- (secondPass_chars (rowTiles s') (secretArr s')).
      by apply list_elem_of_fmap_2. }
    apply list_elem_of_fmap in Hin as (t0 & Ht0 & Hin).
    unfold typedRow in Hrow. rewrite Forall_forall in Hrow.
    destruct (Hrow _ Hin) as [Hlen _]. rewrite <- Ht0, Hc in Hlen. done.
  - destruct (Hfirst L HL) as (s' & -> & Hb). simpl.
    eexists. split; [reflexivity|].
    pose proof (secondPass_budget L HL (rowTiles s') (secretArr s')) as H2.
    unfold budget in *. lia.
Qed.

(** The check of a typed row returns, and bounds the credit of every
    string [L] by its occurrences in the secret. *)
Lemma checkGuess_row_bound (S : string) (row : list TileData) :
  typedRow row →
  ∃ tiles, checkGuess S (guessOfRow row) row = Returns tiles
           ∧ ∀ L, countWhere (credits L) tiles ≤ occurrences L S.
Proof.
  intros Hrow.
  destruct (checkGuess_row_bound_letter "" S row Hrow) as (tiles & Hrun & _).
  exists tiles. split; [exact Hrun|]. intros L.
  destruct (checkGuess_row_bound_letter L S row Hrow) as (tiles' & Hrun' & Hb).
  rewrite Hrun in Hrun'. by simplify_eq.
Qed.

(** *** A guess equal to the secret *)

Lemma firstPass_loop_equal n : ∀ a s,
  (∀ j, a ≤ j → j < a + n →
        ∃ ch, guessArr s !! j = Some ch ∧ secretArr s !! j = Some ch) →
  a + n ≤ length (rowTiles s) →
  ∃ s', forEach firstPass_body (seq a n) s = Returns s'
        ∧ ∀ j, rowTiles s' !! j
               = if decide (a ≤ j ∧ j < a + n) then markCorrect <$> rowTiles s !! j
                 else rowTiles s !! j.
Proof.
  induction n as [|n IH]; intros a s Heq Hlen.
  - exists s. split; [reflexivity|]. intros j. rewrite decide_False by lia. done.
  - destruct (Heq a) as (ch & Hg & Hs); [lia..|].
    destruct (lookup_lt_is_Some_2 (rowTiles s) a) as [t Ht]; [lia|].
    pose (s1 := {| rowTiles := <[a := markCorrect t]> (rowTiles s);
                   secretArr := <[a := ""]> (secretArr s);
                   guessArr := <[a := ""]> (guessArr s) |}).
    assert (firstPass_body a s = Returns s1) as Hs1.
    { unfold firstPass_body. rewrite Hg, decide_True, Ht by done. reflexivity. }
    destruct (IH (S a) s1) as (s' & Hs' & Hrows).
    + intros j Hj1 Hj2. simpl. rewrite !list_lookup_insert_ne by lia. apply Heq; lia.
    + simpl. rewrite length_insert. lia.
    + exists s'. simpl. rewrite Hs1. simpl. split; [exact Hs'|].
      intros j. rewrite Hrows. simpl.
      destruct (decide (j = a)) as [->|Hne].
      * rewrite decide_False, decide_True by lia.
        rewrite list_lookup_insert_eq by lia. by rewrite Ht.
      * rewrite list_lookup_insert_ne by done.
        repeat case_decide; (reflexivity || lia).
Qed.

Lemma secondPass_all_correct tiles : ∀ sa,
  Forall (λ t, state t = CORRECT) tiles → secondPass tiles sa = (tiles, sa).
Proof.
  induction tiles as [|t tiles IH]; intros sa Hall; [reflexivity|].
  inversion Hall as [|?? Ht Hrest]; subst. simpl.
  rewrite decide_False by (intros Hne; by apply Hne).
  by rewrite IH.
Qed.

(** When the letters read from the row are the secret word, every tile is
    claimed in the first pass. *)
Lemma checkGuess_equal (row : list TileData) :
  Forall (λ t, String.length (char t) = 1) row →
  checkGuess (guessOfRow row) (guessOfRow row) row = Returns (markCorrect <$> row).
Proof.
  intros Hrow.
  assert (split (guessOfRow row) = char <$> row) as Hsplit.
  { unfold guessOfRow. apply split_join. by apply Forall_fmap. }
  unfold checkGuess, firstPass. simpl. rewrite Hsplit, length_fmap.
  destruct (firstPass_loop_equal (length row) 0
              {| rowTiles := row; secretArr := char <$> row; guessArr := char <$> row |})
    as (s' & Hs' & Hrows).
  - intros j _ Hj. simpl in *.
    destruct (lookup_lt_is_Some_2 row j) as [t Ht]; [lia|].
    exists (char t). by rewrite list_lookup_fmap, Ht.
  - simpl. lia.
  - rewrite Hs'. simpl.
    assert (rowTiles s' = markCorrect <$> row) as ->.
    { apply list_eq. intros j. rewrite Hrows. simpl. rewrite list_lookup_fmap.
      case_decide as Hj; [done|].
      rewrite (lookup_ge_None_2 row j) by lia. done. }
    rewrite secondPass_all_correct; [done|].
    apply Forall_fmap. by apply Forall_true.
Qed.

(** ** The handlers, guard by guard *)

Ltac status_is H :=
  first [ rewrite (decide_False (P := _ ≠ PLAYING)) by (rewrite H; intros Hn; by apply Hn)
        | rewrite (decide_True (P := _ ≠ PLAYING)) by (rewrite H; discriminate)
        | rewrite (decide_True (P := _ ≠ PLAYING)) by exact H ].

Lemma handleKeyInput_ignored key st :
  gameStatus st ≠ PLAYING ∨ WORD_LENGTH ≤ currentCol st →
  handleKeyInput key st = Returns st.
Proof.
  intros [Hst|Hcol]; unfold handleKeyInput.
  - by status_is Hst.
  - case_decide; [done|]. by rewrite decide_True.
Qed.

Lemma handleKeyInput_writes key st row :
  gameStatus st = PLAYING → currentCol st < WORD_LENGTH →
  grid st !! currentRow st = Some row → length row = WORD_LENGTH →
  handleKeyInput key st
  = Returns (setCurrentCol (currentCol st + 1)
              (setGrid (<[currentRow st := <[currentCol st := mkTile key INITIAL]> row]> (grid st)) st)).
Proof.
  intros Hst Hcol Hrow Hlen. unfold handleKeyInput. status_is Hst.
  rewrite decide_False by lia.
  rewrite Hrow, assign_in_range by lia. reflexivity.
Qed.

Lemma handleDelete_ignored st :
  gameStatus st ≠ PLAYING ∨ currentCol st = 0 → handleDelete st = Returns st.
Proof.
  intros [Hst|Hcol]; unfold handleDelete.
  - by status_is Hst.
  - case_decide; [done|]. rewrite decide_True by lia. done.
Qed.

Lemma handleDelete_clears st row :
  gameStatus st = PLAYING → 0 < currentCol st → currentCol st ≤ WORD_LENGTH →
  grid st !! currentRow st = Some row → length row = WORD_LENGTH →
  handleDelete st
  = Returns (setCurrentCol (currentCol st - 1)
              (setGrid (<[currentRow st := <[currentCol st - 1 := mkTile "" INITIAL]> row]> (grid st)) st)).
Proof.
  intros Hst Hcol Hcol' Hrow Hlen. unfold handleDelete. status_is Hst.
  rewrite decide_False by lia.
  rewrite Hrow, assign_in_range by lia. reflexivity.
Qed.

Lemma handleEnter_ignored st :
  gameStatus st ≠ PLAYING → handleEnter st = Done (Returns st) [].
Proof. intros Hst. unfold handleEnter. by status_is Hst. Qed.

Lemma handleEnter_too_short st :
  gameStatus st = PLAYING → currentCol st < WORD_LENGTH →
  handleEnter st
  = Done (Returns (setMessage (Some "Too short") (setShakeRow true st)))
         [mkTimer 500 clearSignal].
Proof.
  intros Hst Hcol. unfold handleEnter. status_is Hst. by rewrite decide_True.
Qed.

Lemma handleEnter_awaits st row :
  gameStatus st = PLAYING → WORD_LENGTH ≤ currentCol st →
  grid st !! currentRow st = Some row →
  handleEnter st
  = AwaitValidate (guessOfRow row) (setGameStatus VALIDATING st)
                  (handleEnter_resume st row (guessOfRow row)).
Proof.
  intros Hst Hcol Hrow. unfold handleEnter. status_is Hst.
  rewrite decide_False by lia. by rewrite Hrow.
Qed.

(** ** Reachable states *)

Lemma wellFormed_row st :
  wellFormed st → ∃ row, grid st !! currentRow st = Some row ∧ length row = WORD_LENGTH.
Proof.
  intros (Hlen & Hrows & Hr & _).
  destruct (lookup_lt_is_Some_2 (grid st) (currentRow st)) as [row Hrow]; [lia|].
  exists row. split; [done|].
  rewrite Forall_forall in Hrows. apply Hrows. eapply list_elem_of_lookup_2, Hrow.
Qed.

Lemma wellFormed_ext st st' :
  grid st' = grid st → currentRow st' = currentRow st → currentCol st' = currentCol st →
  wellFormed st → wellFormed st'.
Proof. unfold wellFormed. intros -> -> ->. done. Qed.

Lemma playable_ext st st' :
  grid st' = grid st → currentRow st' = currentRow st → currentCol st' = currentCol st →
  (gameStatus st' = PLAYING → gameStatus st = PLAYING) →
  playable st → playable st'.
Proof.
  intros Hg Hr Hc Hs [Hwf Hplay]. split; [by eapply wellFormed_ext|].
  rewrite Hg, Hr, Hc. auto.
Qed.

Lemma wellFormed_insert_row st tiles :
  wellFormed st → length tiles = WORD_LENGTH →
  wellFormed (setGrid (<[currentRow st := tiles]> (grid st)) st).
Proof.
  intros (Hlen & Hrows & Hr & Hc) Htiles. unfold wellFormed. simpl.
  rewrite length_insert. split_and!; [done| |done|done].
  by apply Forall_insert.
Qed.

Lemma wellFormed_write st k t col row :
  wellFormed st → length row = WORD_LENGTH → col ≤ WORD_LENGTH →
  wellFormed (setCurrentCol col
                (setGrid (<[currentRow st := <[k := t]> row]> (grid st)) st)).
Proof.
  intros (Hlen & Hrows & Hr & Hc) Hrow Hcol. unfold wellFormed. simpl.
  rewrite length_insert. split_and!; [done| |done|done].
  apply Forall_insert; [done|]. by rewrite length_insert.
Qed.

Ltac concrete_wellFormed :=
  unfold wellFormed; simpl;
  split_and!; [reflexivity|repeat constructor|unfold MAX_GUESSES; lia|unfold WORD_LENGTH; lia].

Lemma wellFormed_startState word : wellFormed (startState word).
Proof. concrete_wellFormed. Qed.

Lemma playable_startState word : playable (startState word).
Proof.
  split; [apply wellFormed_startState|]. intros _. split.
  - intros r row _ Hrow. simpl in Hrow. unfold newGrid in Hrow.
    apply lookup_replicate in Hrow as [-> _].
    apply Forall_replicate. reflexivity.
  - intros row k t _ _ Hk. simpl in Hk. lia.
Qed.

Lemma playable_typedRow st row :
  playable st → gameStatus st = PLAYING → currentCol st = WORD_LENGTH →
  grid st !! currentRow st = Some row → typedRow row.
Proof.
  intros [Hwf Hplay] Hst Hcol Hrow.
  destruct (Hplay Hst) as [Hfresh Hchars].
  destruct (wellFormed_row st Hwf) as (row' & Hrow' & Hlen). simplify_eq.
  unfold typedRow. apply Forall_lookup. intros k t Ht. split.
  - eapply Hchars; [done..|]. apply lookup_lt_Some in Ht. lia.
  - specialize (Hfresh _ _ (le_n _) Hrow). rewrite Forall_lookup in Hfresh. eauto.
Qed.

Lemma playable_handleKeyInput c st :
  playable st → ∃ st', handleKeyInput (String c "") st = Returns st' ∧ playable st'.
Proof.
  intros Hp.
  destruct (decide (gameStatus st = PLAYING)) as [Hst|Hst];
    [|exists st; split; [apply handleKeyInput_ignored|]; auto].
  destruct (decide (currentCol st < WORD_LENGTH)) as [Hcol|Hcol];
    [|exists st; split; [apply handleKeyInput_ignored; right; lia|]; auto].
  destruct Hp as [Hwf Hplay]. destruct (Hplay Hst) as [Hfresh Hchars].
  destruct (wellFormed_row st Hwf) as (row & Hrow & Hlen).
  assert (currentRow st < length (grid st)) as Hr by (by eapply lookup_lt_Some).
  eexists. split; [by eapply handleKeyInput_writes|]. split.
  - apply wellFormed_write; [done|done|lia].
  - intros _. simpl. split.
    + intros r row' Hle Hrow'.
      destruct (decide (r = currentRow st)) as [->|Hne].
      * rewrite list_lookup_insert_eq in Hrow' by done. simplify_eq.
        apply Forall_insert; [by eapply Hfresh|reflexivity].
      * rewrite list_lookup_insert_ne in Hrow' by done. by eapply Hfresh.
    + intros row' k t Hrow' Ht Hk.
      rewrite list_lookup_insert_eq in Hrow' by done. simplify_eq.
      destruct (decide (k = currentCol st)) as [->|Hne].
      * rewrite list_lookup_insert_eq in Ht by lia. by simplify_eq.
      * rewrite list_lookup_insert_ne in Ht by done. eapply Hchars; [done..|lia].
Qed.

Lemma playable_handleDelete st :
  playable st → ∃ st', handleDelete st = Returns st' ∧ playable st'.
Proof.
  intros Hp.
  destruct (decide (gameStatus st = PLAYING)) as [Hst|Hst];
    [|exists st; split; [apply handleDelete_ignored|]; auto].
  destruct (decide (0 < currentCol st)) as [Hcol|Hcol];
    [|exists st; split; [apply handleDelete_ignored; right; lia|]; auto].
  destruct Hp as [Hwf Hplay]. destruct (Hplay Hst) as [Hfresh Hchars].
  destruct (wellFormed_row st Hwf) as (row & Hrow & Hlen).
  assert (currentRow st < length (grid st)) as Hr by (by eapply lookup_lt_Some).
  assert (currentCol st ≤ WORD_LENGTH) as Hc by (by destruct Hwf as (? & ? & ? & ?)).
  eexists. split; [by eapply handleDelete_clears|]. split.
  - apply wellFormed_write; [done|done|lia].
  - intros _. simpl. split.
    + intros r row' Hle Hrow'.
      destruct (decide (r = currentRow st)) as [->|Hne].
      * rewrite list_lookup_insert_eq in Hrow' by done. simplify_eq.
        apply Forall_insert; [by eapply Hfresh|reflexivity].
      * rewrite list_lookup_insert_ne in Hrow' by done. by eapply Hfresh.
    + intros row' k t Hrow' Ht Hk.
      rewrite list_lookup_insert_eq in Hrow' by done. simplify_eq.
      rewrite list_lookup_insert_ne in Ht by lia. eapply Hchars; [done..|lia].
Qed.

Lemma playable_submit isValid st :
  playable st → ∃ st', settle isValid "" (handleEnter st) = Returns st' ∧ playable st'.
Proof.
  intros Hp.
  destruct (decide (gameStatus st = PLAYING)) as [Hst|Hst];
    [|exists st; split; [by rewrite handleEnter_ignored|done]].
  destruct (decide (currentCol st < WORD_LENGTH)) as [Hcol|Hcol].
  { eexists. split; [by rewrite handleEnter_too_short|].
    apply (playable_ext st); [reflexivity..|done|done]. }
  pose proof Hp as [Hwf Hplay]. destruct (Hplay Hst) as [Hfresh Hchars].
  destruct (wellFormed_row st Hwf) as (row & Hrow & Hlen).
  assert (currentCol st = WORD_LENGTH) as Hfull
    by (destruct Hwf as (? & ? & ? & ?); lia).
  rewrite (handleEnter_awaits st row) by (done || lia). simpl.
  unfold handleEnter_resume. destruct isValid; simpl.
  - destruct (checkGuess_row_bound (secretWord st) row) as (tiles & Hrun & _);
      [by eapply playable_typedRow|].
    rewrite Hrun. simpl.
    assert (length tiles = WORD_LENGTH) as Htiles
      by (by rewrite (checkGuess_length _ _ _ _ Hrun)).
    pose proof (wellFormed_insert_row st tiles Hwf Htiles) as Hwf'.
    eexists. split; [reflexivity|]. unfold checkWinLoss.
    case_decide; [|case_decide].
    + split; [|discriminate]. exact Hwf'.
    + split; [|discriminate]. exact Hwf'.
    + split.
      * destruct Hwf' as (? & ? & ? & ?). unfold wellFormed in *. simpl in *.
        unfold MAX_GUESSES in *. split_and!; auto; lia.
      * intros _. simpl. split.
        -- intros r row' Hle Hrow'. rewrite list_lookup_insert_ne in Hrow' by lia.
           eapply Hfresh; [|done]. lia.
        -- intros ???? _ ?. lia.
  - eexists. split; [reflexivity|].
    apply (playable_ext st); [reflexivity..|done|done].
Qed.

Lemma playable_perform i st :
  playable st → ∃ st', perform i st = Returns st' ∧ playable st'.
Proof.
  destruct i as [c| |isValid]; simpl.
  - apply playable_handleKeyInput.
  - apply playable_handleDelete.
  - apply playable_submit.
Qed.

(** From a fresh game on, whatever the player does and whatever the
    provider answers, no handler throws and the state stays [playable]. *)
Lemma playable_play intents : ∀ st,
  playable st → ∃ st', play intents st = Returns st' ∧ playable st'.
Proof.
  induction intents as [|i rest IH]; intros st Hp; [by exists st|]. simpl.
  destruct (playable_perform i st Hp) as (st1 & -> & Hp1). simpl. by apply IH.
Qed.

(** ** Keyboard hints *)

Lemma rank_CORRECT s : 3 ≤ rank s → s = Some CORRECT.
Proof. destruct s as [[]|]; simpl; (reflexivity || lia). Qed.

Lemma upgradeLetter_other (next : gmap string LetterState) tile L :
  char tile ≠ L → upgradeLetter next tile !! L = next !! L.
Proof.
  intros Hne. unfold upgradeLetter.
  repeat case_decide; rewrite ?lookup_insert_ne by done; reflexivity.
Qed.

Lemma upgradeLetter_mono (next : gmap string LetterState) tile L :
  rank (next !! L) ≤ rank (upgradeLetter next tile !! L).
Proof.
  destruct (decide (char tile = L)) as [<-|Hne];
    [|by rewrite upgradeLetter_other].
  unfold upgradeLetter.
  destruct (decide (state tile = CORRECT)) as [_|_].
  { rewrite lookup_insert_eq. destruct (next !! char tile) as [[]|]; simpl; lia. }
  destruct (decide (state tile = PRESENT ∧ next !! char tile ≠ Some CORRECT))
    as [[_ Hcur]|_].
  { rewrite lookup_insert_eq. destruct (next !! char tile) as [[]|]; simpl; try lia.
    by destruct Hcur. }
  destruct (decide (state tile = ABSENT ∧ next !! char tile = None)) as [[_ Hcur]|_].
  { rewrite lookup_insert_eq, Hcur. simpl. lia. }
  reflexivity.
Qed.

Lemma updateLetterStates_mono rowTiles : ∀ (prev : gmap string LetterState) L,
  rank (prev !! L) ≤ rank (updateLetterStates prev rowTiles !! L).
Proof.
  unfold updateLetterStates.
  induction rowTiles as [|t tiles IH]; intros prev L; [reflexivity|]. simpl.
  etrans; [apply (upgradeLetter_mono prev t L)|apply IH].
Qed.

Lemma hints_mono rows : ∀ (prev : gmap string LetterState) L,
  rank (prev !! L) ≤ rank (foldl updateLetterStates prev rows !! L).
Proof.
  induction rows as [|r rows IH]; intros prev L; [reflexivity|]. simpl.
  etrans; [apply (updateLetterStates_mono r prev L)|apply IH].
Qed.

Lemma handleKeyInput_letterStates key st st' :
  handleKeyInput key st = Returns st' → letterStates st' = letterStates st.
Proof.
  unfold handleKeyInput, assign. intros Hrun.
  repeat case_decide; simplify_eq; try done;
    destruct (grid st !! currentRow st); simplify_eq/=;
    repeat case_decide; by simplify_eq/=.
Qed.

Lemma handleDelete_letterStates st st' :
  handleDelete st = Returns st' → letterStates st' = letterStates st.
Proof.
  unfold handleDelete, assign. intros Hrun.
  repeat case_decide; simplify_eq; try done;
    destruct (grid st !! currentRow st); simplify_eq/=;
    repeat case_decide; by simplify_eq/=.
Qed.

(** What a submit does to the hints: nothing, or the keyboard update with
    the row it has just evaluated. *)
Lemma submit_letterStates isValid st st' :
  settle isValid "" (handleEnter st) = Returns st' →
  letterStates st' = letterStates st
  ∨ ∃ row tiles, grid st !! currentRow st = Some row
       ∧ checkGuess (secretWord st) (guessOfRow row) row = Returns tiles
       ∧ letterStates st' = updateLetterStates (letterStates st) tiles.
Proof.
  unfold handleEnter. intros Hrun.
  case_decide; simplify_eq/=; [by left|].
  case_decide; simplify_eq/=; [by left|].
  destruct (grid st !! currentRow st) as [row|] eqn:Hrow; simplify_eq/=.
  unfold handleEnter_resume in Hrun. destruct isValid; simplify_eq/=; [|by left].
  destruct (checkGuess _ _ row) as [tiles| |] eqn:Hcheck; simplify_eq/=.
  right. exists row, tiles. split_and!; [done..|].
  unfold checkWinLoss. by repeat case_decide.
Qed.

Lemma perform_hints_mono i st st' L :
  perform i st = Returns st' →
  rank (letterStates st !! L) ≤ rank (letterStates st' !! L).
Proof.
  destruct i as [c| |isValid]; simpl; intros Hrun.
  - by rewrite (handleKeyInput_letterStates _ _ _ Hrun).
  - by rewrite (handleDelete_letterStates _ _ Hrun).
  - destruct (submit_letterStates _ _ _ Hrun) as [->|(row & tiles & _ & _ & ->)];
      [done|apply updateLetterStates_mono].
Qed.

Lemma play_hints_mono intents : ∀ st st' L,
  play intents st = Returns st' →
  rank (letterStates st !! L) ≤ rank (letterStates st' !! L).
Proof.
  induction intents as [|i rest IH]; intros st st' L Hrun; simplify_eq/=; [done|].
  destruct (perform i st) as [st1| |] eqn:Hstep; simplify_eq/=.
  etrans; [by eapply perform_hints_mono|by eapply IH].
Qed.

(** ** A submitted row in the running game *)

(** In a game that is on, a valid full-row submit leaves in the grid a row
    that credits no letter beyond its occurrences in the secret word. *)
Lemma submit_credit_bound st :
  playable st → gameStatus st = PLAYING → currentCol st = WORD_LENGTH →
  ∃ st' tiles, settle true "" (handleEnter st) = Returns st'
    ∧ grid st' !! currentRow st = Some tiles
    ∧ ∀ L, countWhere (credits L) tiles ≤ occurrences L (secretWord st).
Proof.
  intros Hp Hst Hfull. pose proof Hp as [Hwf _].
  destruct (wellFormed_row st Hwf) as (row & Hrow & Hlen).
  rewrite (handleEnter_awaits st row) by (done || lia). simpl.
  destruct (checkGuess_row_bound (secretWord st) row) as (tiles & Hrun & Hb);
    [by eapply playable_typedRow|].
  rewrite Hrun. simpl. exists (checkWinLoss st (guessOfRow row)
    (setLetterStates (updateLetterStates (letterStates st) tiles)
       (setGrid (<[currentRow st := tiles]> (grid st)) (setGameStatus VALIDATING st)))), tiles.
  split_and!; [reflexivity| |exact Hb].
  unfold checkWinLoss. repeat case_decide; simpl;
    apply list_lookup_insert_eq; by eapply lookup_lt_Some.
Qed.

Example play_LLAMA_against_ALLOY :
  (λ st, (gameStatus st, currentRow st, currentCol st, grid st !! 0,
          letterStates st !! "L", letterStates st !! "A", letterStates st !! "M",
          letterStates st !! "O"))
    <$> stateOf (play (typeWord "LLAMA" ++ [Submit true]) (startState "ALLOY"))
  = Some (PLAYING, 1, 0,
          Some [mkTile "L" PRESENT; mkTile "L" CORRECT; mkTile "A" PRESENT;
                mkTile "M" ABSENT; mkTile "A" ABSENT],
          Some CORRECT, Some PRESENT, Some ABSENT, None).
Proof. vm_compute. reflexivity. Qed.

Example play_delete_retype :
  (λ st, (currentCol st, grid st !! 0))
    <$> stateOf (play (typeWord "CRAB" ++ [Delete; Delete] ++ typeWord "ZY") (startState "CRANE"))
  = Some (4, Some [mkTile "C" INITIAL; mkTile "R" INITIAL; mkTile "Z" INITIAL;
                   mkTile "Y" INITIAL; mkTile "" INITIAL]).
Proof. vm_compute. reflexivity. Qed.

Example last_row_wrong_guess_loses :
  (λ st, (gameStatus st, message st, currentRow st))
    <$> stateOf (play (typeWord "BRAIN" ++ [Submit true])
                      (setCurrentRow 4 (startState "CRANE")))
  = Some (LOST, Some "CRANE", 4).
Proof. vm_compute. reflexivity. Qed.

(** * Part IV: the claims *)

(** C1. For every secret word [S] and guess [G] of equal length, checking
    the row into which [G] was typed against [S] ends normally, leaves the
    letters of the row in place, and for each letter [L] marks at most
    count(L, S) tiles showing [L] as PRESENT or CORRECT. *)
Theorem C1_no_double_credit (S G : string) :
  String.length G = String.length S →
  ∃ tiles, checkGuess S (guessOfRow (tilesOf G)) (tilesOf G) = Returns tiles
           ∧ char <$> tiles = split G
           ∧ ∀ L, countWhere (credits L) tiles ≤ occurrences L S.
Proof.
  intros _.
  destruct (checkGuess_row_bound S (tilesOf G) (typedRow_tilesOf G))
    as (tiles & Hrun & Hb).
  exists tiles. split_and!; [done| |done].
  by rewrite (checkGuess_chars _ _ _ _ Hrun), chars_tilesOf.
Qed.

Lemma C1_no_double_credit_witness :
  String.length "LLAMA" = String.length "ALLOY"
  ∧ ∃ tiles, checkGuess "ALLOY" (guessOfRow (tilesOf "LLAMA")) (tilesOf "LLAMA") = Returns tiles
             ∧ char <$> tiles = split "LLAMA"
             ∧ ∀ L, countWhere (credits L) tiles ≤ occurrences L "ALLOY".
Proof.
  split; [reflexivity|].
  apply (C1_no_double_credit "ALLOY" "LLAMA"). reflexivity.
Defined.

(** C2. In a well-formed PLAYING state whose current row is full, holds one
    letter per tile and spells the secret word, handleEnter stops at the call
    of validateWordExistence; when the answer is true the continuation
    returns, whatever state it resumes on, a state with gameStatus WON in
    which every tile of the submitted row is CORRECT and keeps its letter. *)
Theorem C2_exact_guess_wins (st : State) (row : list TileData) :
  wellFormed st → gameStatus st = PLAYING → currentCol st = WORD_LENGTH →
  grid st !! currentRow st = Some row →
  Forall (λ t, String.length (char t) = 1) row →
  guessOfRow row = secretWord st →
  ∃ pending resume,
    handleEnter st = AwaitValidate (secretWord st) pending resume
    ∧ ∀ now, ∃ st' row',
        resume true now = Done (Returns st') []
        ∧ gameStatus st' = WON
        ∧ grid st' !! currentRow st = Some row'
        ∧ Forall (λ t, state t = CORRECT) row'
        ∧ char <$> row' = char <$> row.
Proof.
  intros Hwf Hst Hcol Hrow Hsingle Hguess.
  do 2 eexists. split.
  - rewrite (handleEnter_awaits st row) by (done || lia). by rewrite Hguess.
  - intros now. unfold handleEnter_resume. simpl.
    rewrite <- Hguess. rewrite checkGuess_equal by done. simpl.
    unfold checkWinLoss. rewrite decide_True by done.
    do 2 eexists. split; [reflexivity|]. simpl. split_and!.
    + reflexivity.
    + apply list_lookup_insert_eq. by eapply lookup_lt_Some.
    + apply Forall_fmap. by apply Forall_true.
    + rewrite <- list_fmap_compose. reflexivity.
Qed.

Lemma C2_exact_guess_wins_witness :
  let st := typedState "CRANE" "CRANE" in
  wellFormed st ∧ gameStatus st = PLAYING ∧ currentCol st = WORD_LENGTH
  ∧ grid st !! currentRow st = Some (tilesOf "CRANE")
  ∧ Forall (λ t, String.length (char t) = 1) (tilesOf "CRANE")
  ∧ guessOfRow (tilesOf "CRANE") = secretWord st
  ∧ ∃ pending resume,
      handleEnter st = AwaitValidate "CRANE" pending resume
      ∧ ∀ now, ∃ st' row',
          resume true now = Done (Returns st') []
          ∧ gameStatus st' = WON
          ∧ grid st' !! 0 = Some row'
          ∧ Forall (λ t, state t = CORRECT) row'
          ∧ char <$> row' = char <$> tilesOf "CRANE".
Proof.
  intros st.
  assert (wellFormed st) as Hwf by concrete_wellFormed.
  assert (Forall (λ t, String.length (char t) = 1) (tilesOf "CRANE")) as Hsingle
    by (repeat constructor).
  split_and!; [exact Hwf|reflexivity|reflexivity|reflexivity|exact Hsingle|reflexivity|].
  exact (C2_exact_guess_wins st (tilesOf "CRANE") Hwf eq_refl eq_refl eq_refl Hsingle eq_refl).
Defined.

(** C3. Checking the guess LLAMA against the secret ALLOY gives, position
    by position, L PRESENT, L CORRECT, A PRESENT, M ABSENT, A ABSENT. *)
Theorem C3_LLAMA_against_ALLOY :
  checkGuess "ALLOY" (guessOfRow (tilesOf "LLAMA")) (tilesOf "LLAMA")
  = Returns [mkTile "L" PRESENT; mkTile "L" CORRECT; mkTile "A" PRESENT;
             mkTile "M" ABSENT; mkTile "A" ABSENT].
Proof. reflexivity. Qed.

(** C4, as the specification states it, fails: when the fetch started at
    mount completes with the empty word, the continuation of initGame stores
    it and sets gameStatus to PLAYING all the same. *)
Lemma C4_empty_word_counterexample :
  ∃ pending resume st',
    initGame mountState = AwaitFetch WORD_LENGTH pending resume
    ∧ gameStatus pending = LOADING
    ∧ resume "" pending = Done (Returns st') []
    ∧ secretWord st' = ""
    ∧ gameStatus st' = PLAYING.
Proof. do 3 eexists. split_and!; reflexivity. Qed.

(** C4, amended. initGame puts the state at LOADING and stops at the call of
    fetchRandomWord(WORD_LENGTH).  As long as no word has been delivered the
    state stays as it is: handleKeyInput, handleDelete and handleEnter return
    it unchanged.  When the fetch completes, the continuation stores the word
    it is given, whatever it is, and sets gameStatus to PLAYING; nothing else
    of the state it resumes on changes. *)
Theorem C4_fetch_completion (st : State) :
  ∃ pending resume,
    initGame st = AwaitFetch WORD_LENGTH pending resume
    ∧ gameStatus pending = LOADING
    ∧ (∀ key, handleKeyInput key pending = Returns pending)
    ∧ handleDelete pending = Returns pending
    ∧ handleEnter pending = Done (Returns pending) []
    ∧ ∀ word now, ∃ st',
        resume word now = Done (Returns st') []
        ∧ gameStatus st' = PLAYING
        ∧ secretWord st' = word
        ∧ grid st' = grid now
        ∧ currentRow st' = currentRow now
        ∧ currentCol st' = currentCol now
        ∧ letterStates st' = letterStates now
        ∧ shakeRow st' = shakeRow now
        ∧ message st' = message now
        ∧ isDarkMode st' = isDarkMode now.
Proof.
  do 2 eexists. split; [reflexivity|]. split_and!; try reflexivity.
  intros word now. eexists. split_and!; reflexivity.
Qed.

(** C5, as the specification states it, fails: handleKeyInput does not look
    at the string it is given.  Called with the digit 1 in the PLAYING state
    of a fresh game it writes a tile and moves the cursor. *)
Lemma C5_digit_counterexample :
  ∃ st', gameStatus (startState "CRANE") = PLAYING
    ∧ test_A_Z "1" = false
    ∧ handleKeyInput "1" (startState "CRANE") = Returns st'
    ∧ tileAt (grid st') 0 0 = Some (mkTile "1" INITIAL)
    ∧ tileAt (grid (startState "CRANE")) 0 0 = Some (mkTile "" INITIAL)
    ∧ currentCol (startState "CRANE") = 0
    ∧ currentCol st' = 1
    ∧ handleKeyInput "1" (startState "CRANE") ≠ Returns (startState "CRANE").
Proof. eexists. split_and!; try reflexivity. discriminate. Qed.

(** C5, amended. Malformed input is dropped by the physical keyboard
    listener, not by handleKeyInput: for a key event whose key, once
    upper-cased, is neither ENTER nor BACKSPACE nor a single letter A-Z,
    handleKeyDown calls no handler and returns the state unchanged, whatever
    the gameStatus; the same holds for every key pressed with ctrl, meta or
    alt.  handleKeyInput itself stores whatever string it is given: in a
    well-formed PLAYING state with currentCol < WORD_LENGTH it writes the
    string into the tile at the cursor and advances currentCol. *)
Theorem C5_malformed_key_ignored (toUpperCase : string → string)
    (e : KeyboardEvent) (st : State) :
  (toUpperCase (key e) ≠ "ENTER"
   ∧ toUpperCase (key e) ≠ "BACKSPACE"
   ∧ test_A_Z (toUpperCase (key e)) = false)
  ∨ ctrlKey e = true ∨ metaKey e = true ∨ altKey e = true →
  handleKeyDown toUpperCase e st = Done (Returns st) []
  ∧ ∀ s : string,
      wellFormed st → gameStatus st = PLAYING → currentCol st < WORD_LENGTH →
      ∃ st', handleKeyInput s st = Returns st'
        ∧ tileAt (grid st') (currentRow st) (currentCol st) = Some (mkTile s INITIAL)
        ∧ currentCol st' = currentCol st + 1.
Proof.
  intros Hkey. split.
  - unfold handleKeyDown.
    destruct Hkey as [(Henter & Hback & Htest)|[Hmod|[Hmod|Hmod]]].
    + destruct (ctrlKey e || metaKey e || altKey e); [reflexivity|].
      rewrite !decide_False by done. by rewrite Htest.
    + by rewrite Hmod.
    + rewrite Hmod. by destruct (ctrlKey e).
    + rewrite Hmod. by destruct (ctrlKey e), (metaKey e).
  - intros s Hwf Hst Hcol.
    destruct (wellFormed_row st Hwf) as (row & Hrow & Hlen).
    eexists. split; [by eapply handleKeyInput_writes|]. simpl. split; [|reflexivity].
    apply tileAt_insert_eq; [by eapply lookup_lt_Some|lia].
Qed.

Lemma C5_malformed_key_ignored_witness :
  let e := mkKeyboardEvent false false false "1" in
  let st := startState "CRANE" in
  ((asciiToUpperCase (key e) ≠ "ENTER"
    ∧ asciiToUpperCase (key e) ≠ "BACKSPACE"
    ∧ test_A_Z (asciiToUpperCase (key e)) = false)
   ∨ ctrlKey e = true ∨ metaKey e = true ∨ altKey e = true)
  ∧ handleKeyDown asciiToUpperCase e st = Done (Returns st) []
  ∧ ∃ st', handleKeyInput "1" st = Returns st'
      ∧ tileAt (grid st') 0 0 = Some (mkTile "1" INITIAL)
      ∧ currentCol st' = 1.
Proof.
  intros e st.
  assert ((asciiToUpperCase (key e) ≠ "ENTER"
           ∧ asciiToUpperCase (key e) ≠ "BACKSPACE"
           ∧ test_A_Z (asciiToUpperCase (key e)) = false)
          ∨ ctrlKey e = true ∨ metaKey e = true ∨ altKey e = true) as Hkey.
  { left. split_and!; [discriminate|discriminate|reflexivity]. }
  assert (currentCol st < WORD_LENGTH) as Hcol by (vm_compute; lia).
  destruct (C5_malformed_key_ignored asciiToUpperCase e st Hkey) as [Hdown Hinput].
  split_and!; [exact Hkey|exact Hdown|].
  exact (Hinput "1" (wellFormed_startState "CRANE") eq_refl Hcol).
Defined.

(** C6. For every letter [L], every hint mapping [prev] and every sequence
    of evaluated rows fed to the keyboard update one after the other, the
    hint of [L] never moves down in the order INITIAL < ABSENT < PRESENT <
    CORRECT: it is no lower after a first part of the rows than before, and
    no lower after all of them than after the first part; a hint that is
    CORRECT stays CORRECT and a hint that is PRESENT never becomes ABSENT. *)
Theorem C6_hints_never_downgrade (L : string) (prev : gmap string LetterState)
    (earlier later : list (list TileData)) :
  let mid := foldl updateLetterStates prev earlier in
  let final := foldl updateLetterStates prev (earlier ++ later) in
  rank (prev !! L) ≤ rank (mid !! L)
  ∧ rank (mid !! L) ≤ rank (final !! L)
  ∧ (mid !! L = Some CORRECT → final !! L = Some CORRECT)
  ∧ (mid !! L = Some PRESENT → final !! L ≠ Some ABSENT).
Proof.
  intros mid final. subst mid final. rewrite foldl_app.
  pose proof (hints_mono earlier prev L) as H1.
  pose proof (hints_mono later (foldl updateLetterStates prev earlier) L) as H2.
  split_and!; [exact H1|exact H2|..].
  - intros Hc. rewrite Hc in H2. by apply rank_CORRECT.
  - intros Hp Ha. rewrite Hp, Ha in H2. simpl in H2. lia.
Qed.

(** C7. In a PLAYING state with currentCol < WORD_LENGTH, handleEnter runs
    to its end without reaching the call of validateWordExistence; the state
    it returns has the secretWord, grid, currentRow, currentCol, gameStatus,
    letterStates and isDarkMode it started from, and carries the too-short
    signal: shakeRow set, the message Too short, and one timer that clears
    both. *)
Theorem C7_submit_too_short (st : State) :
  gameStatus st = PLAYING → currentCol st < WORD_LENGTH →
  ∃ st', handleEnter st = Done (Returns st') [mkTimer 500 clearSignal]
    ∧ ¬ callsValidation (handleEnter st)
    ∧ currentRow st' = currentRow st
    ∧ currentCol st' = currentCol st
    ∧ grid st' = grid st
    ∧ secretWord st' = secretWord st
    ∧ gameStatus st' = PLAYING
    ∧ letterStates st' = letterStates st
    ∧ isDarkMode st' = isDarkMode st
    ∧ shakeRow st' = true
    ∧ message st' = Some "Too short".
Proof.
  intros Hst Hcol.
  pose proof (handleEnter_too_short st Hst Hcol) as Hrun.
  eexists. split; [exact Hrun|]. rewrite Hrun. simpl. split_and!; auto.
Qed.

Lemma C7_submit_too_short_witness :
  let st := typedState "CRANE" "CAT" in
  gameStatus st = PLAYING ∧ currentCol st < WORD_LENGTH
  ∧ ∃ st', handleEnter st = Done (Returns st') [mkTimer 500 clearSignal]
      ∧ ¬ callsValidation (handleEnter st)
      ∧ currentRow st' = 0
      ∧ message st' = Some "Too short".
Proof.
  intros st.
  assert (currentCol st < WORD_LENGTH) as Hcol by (vm_compute; lia).
  split_and!; [reflexivity|exact Hcol|].
  destruct (C7_submit_too_short st eq_refl Hcol)
    as (st' & H1 & H2 & H3 & _ & _ & _ & _ & _ & _ & _ & H11).
  exists st'. auto.
Defined.

(** C8. In a well-formed PLAYING state with a full row, handleEnter stops at
    the call of validateWordExistence with gameStatus VALIDATING.  When the
    answer is false, the continuation returns with gameStatus back at
    PLAYING, shakeRow set and the message Not a valid word (one timer
    clears both); currentRow, currentCol, grid, secretWord and letterStates
    are those from before the submit.  Whatever state it resumes on, the
    continuation touches gameStatus, shakeRow and message only. *)
Theorem C8_word_rejected (st : State) :
  wellFormed st → gameStatus st = PLAYING → currentCol st = WORD_LENGTH →
  ∃ currentGuess pending resume st',
    handleEnter st = AwaitValidate currentGuess pending resume
    ∧ gameStatus pending = VALIDATING
    ∧ resume false pending = Done (Returns st') [mkTimer 1000 clearSignal]
    ∧ gameStatus st' = PLAYING
    ∧ shakeRow st' = true
    ∧ message st' = Some "Not a valid word"
    ∧ currentRow st' = currentRow st
    ∧ currentCol st' = currentCol st
    ∧ grid st' = grid st
    ∧ secretWord st' = secretWord st
    ∧ letterStates st' = letterStates st
    ∧ ∀ now, resume false now
             = Done (Returns (setMessage (Some "Not a valid word")
                               (setShakeRow true (setGameStatus PLAYING now))))
                    [mkTimer 1000 clearSignal].
Proof.
  intros Hwf Hst Hcol.
  destruct (wellFormed_row st Hwf) as (row & Hrow & Hlen).
  do 4 eexists. split; [apply (handleEnter_awaits st row); (done || lia)|].
  simpl. split_and!; reflexivity.
Qed.

Lemma C8_word_rejected_witness :
  let st := typedState "CRANE" "XQZJV" in
  wellFormed st ∧ gameStatus st = PLAYING ∧ currentCol st = WORD_LENGTH
  ∧ ∃ currentGuess pending resume st',
      handleEnter st = AwaitValidate currentGuess pending resume
      ∧ gameStatus pending = VALIDATING
      ∧ resume false pending = Done (Returns st') [mkTimer 1000 clearSignal]
      ∧ gameStatus st' = PLAYING
      ∧ message st' = Some "Not a valid word"
      ∧ currentRow st' = 0
      ∧ currentCol st' = 5
      ∧ grid st' = grid st.
Proof.
  intros st.
  assert (wellFormed st) as Hwf by concrete_wellFormed.
  split_and!; [exact Hwf|reflexivity|reflexivity|].
  destruct (C8_word_rejected st Hwf eq_refl eq_refl)
    as (g & p & k & st' & H1 & H2 & H3 & H4 & _ & H6 & H7 & H8 & H9 & _).
  exists g, p, k, st'. split_and!; auto.
Defined.

(** C9. In a well-formed PLAYING state with 0 < currentCol, handleDelete
    followed by handleKeyInput(c) both return; the cursor first moves back
    one column and the tile there, whatever it held, ends up as
    {char: c, state: INITIAL}; currentCol is back at its original value, and
    the final state is the original one with that single tile replaced. *)
Theorem C9_delete_then_typeChar (c : string) (st : State) :
  wellFormed st → gameStatus st = PLAYING → 0 < currentCol st →
  ∃ row st1 st2,
    grid st !! currentRow st = Some row
    ∧ handleDelete st = Returns st1
    ∧ currentCol st1 = currentCol st - 1
    ∧ handleKeyInput c st1 = Returns st2
    ∧ tileAt (grid st2) (currentRow st1) (currentCol st1) = Some (mkTile c INITIAL)
    ∧ currentCol st2 = currentCol st
    ∧ st2 = setGrid (<[currentRow st := <[currentCol st - 1 := mkTile c INITIAL]> row]> (grid st)) st.
Proof.
  intros Hwf Hst Hcol.
  destruct (wellFormed_row st Hwf) as (row & Hrow & Hlen).
  destruct Hwf as (Hg & Hrows & Hr & Hc).
  assert (currentRow st < length (grid st)) as Hr' by (by eapply lookup_lt_Some).
  exists row. eexists. eexists. split; [done|].
  split; [by eapply handleDelete_clears|]. split; [reflexivity|].
  split.
  { eapply handleKeyInput_writes; simpl; [done|lia| |].
    - by apply list_lookup_insert_eq.
    - by rewrite length_insert. }
  simpl. split_and!.
  - apply tileAt_insert_eq; [by rewrite length_insert|rewrite length_insert; lia].
  - lia.
  - rewrite list_insert_insert_eq, list_insert_insert_eq.
    destruct st as [sw g r k gs sh m d ls]. unfold setGrid, setCurrentCol. simpl in *.
    f_equal. lia.
Qed.

Lemma C9_delete_then_typeChar_witness :
  let st := typedState "CRANE" "AB" in
  wellFormed st ∧ gameStatus st = PLAYING ∧ 0 < currentCol st
  ∧ ∃ row st1 st2,
      grid st !! currentRow st = Some row
      ∧ handleDelete st = Returns st1
      ∧ currentCol st1 = currentCol st - 1
      ∧ handleKeyInput "Z" st1 = Returns st2
      ∧ tileAt (grid st2) (currentRow st1) (currentCol st1) = Some (mkTile "Z" INITIAL)
      ∧ currentCol st2 = currentCol st
      ∧ st2 = setGrid (<[currentRow st := <[currentCol st - 1 := mkTile "Z" INITIAL]> row]> (grid st)) st.
Proof.
  intros st.
  assert (wellFormed st) as Hwf by concrete_wellFormed.
  assert (0 < currentCol st) as Hcol by (simpl; lia).
  split_and!; [exact Hwf|reflexivity|exact Hcol|].
  exact (C9_delete_then_typeChar "Z" st Hwf eq_refl Hcol).
Defined.

(** C10. In a well-formed PLAYING state with currentCol < WORD_LENGTH,
    handleKeyInput(c) returns a state whose tile at (currentRow, currentCol)
    is {char: c, state: INITIAL}, whose every other tile and whose row
    lengths are those of the old grid, whose currentCol is one more, and
    whose secretWord, gameStatus, currentRow, letterStates, shakeRow,
    message and isDarkMode are unchanged. *)
Theorem C10_typeChar_frame (c : string) (st : State) :
  wellFormed st → gameStatus st = PLAYING → currentCol st < WORD_LENGTH →
  ∃ st', handleKeyInput c st = Returns st'
    ∧ tileAt (grid st') (currentRow st) (currentCol st) = Some (mkTile c INITIAL)
    ∧ (∀ r k, (r, k) ≠ (currentRow st, currentCol st) →
              tileAt (grid st') r k = tileAt (grid st) r k)
    ∧ length <$> grid st' = length <$> grid st
    ∧ currentCol st' = currentCol st + 1
    ∧ secretWord st' = secretWord st
    ∧ gameStatus st' = gameStatus st
    ∧ currentRow st' = currentRow st
    ∧ letterStates st' = letterStates st
    ∧ shakeRow st' = shakeRow st
    ∧ message st' = message st
    ∧ isDarkMode st' = isDarkMode st.
Proof.
  intros Hwf Hst Hcol.
  destruct (wellFormed_row st Hwf) as (row & Hrow & Hlen).
  eexists. split; [by eapply handleKeyInput_writes|]. simpl.
  split_and!; try reflexivity.
  - apply tileAt_insert_eq; [by eapply lookup_lt_Some|lia].
  - intros r k Hne. by apply tileAt_insert_ne.
  - rewrite list_fmap_insert, length_insert. apply list_insert_id.
    by rewrite list_lookup_fmap, Hrow.
Qed.

Lemma C10_typeChar_frame_witness :
  wellFormed (startState "CRANE")
  ∧ gameStatus (startState "CRANE") = PLAYING
  ∧ currentCol (startState "CRANE") < WORD_LENGTH
  ∧ ∃ st', handleKeyInput "B" (startState "CRANE") = Returns st'
      ∧ tileAt (grid st') 0 0 = Some (mkTile "B" INITIAL)
      ∧ currentCol st' = 1.
Proof.
  assert (currentCol (startState "CRANE") < WORD_LENGTH) as Hcol by (vm_compute; lia).
  split_and!; [apply wellFormed_startState|reflexivity|exact Hcol|].
  destruct (C10_typeChar_frame "B" (startState "CRANE")
              (wellFormed_startState "CRANE") eq_refl Hcol)
    as (st' & H1 & H2 & _ & _ & H5 & _).
  exists st'. auto.
Defined.

(** * Part V: further properties of the code *)

(** ** More counting *)

Lemma countWhere_fmap {A B} (f : A → B) (P : B → Prop) `{∀ y, Decision (P y)} l :
  countWhere (λ x, P (f x)) l = countWhere P (f <$> l).
Proof.
  induction l as [|x l IH]; [reflexivity|].
  rewrite fmap_cons, !countWhere_cons, IH. unfold indicator.
  destruct (decide (P (f x))); reflexivity.
Qed.

Lemma countWhere_split {A} (P Q : A → Prop)
    `{∀ x, Decision (P x)} `{∀ x, Decision (Q x)} l :
  countWhere (λ x, P x ∧ Q x) l + countWhere (λ x, P x ∧ ¬ Q x) l = countWhere P l.
Proof.
  induction l as [|x l IH]; [reflexivity|].
  rewrite !countWhere_cons, <- IH. unfold indicator.
  destruct (decide (P x)), (decide (Q x)).
  - rewrite decide_True, decide_False by tauto. lia.
  - rewrite decide_False, decide_True by tauto. lia.
  - rewrite !decide_False by tauto. lia.
  - rewrite !decide_False by tauto. lia.
Qed.

Lemma countWhere_elem {A} (P : A → Prop) `{∀ x, Decision (P x)} l x :
  x ∈ l → P x → 1 ≤ countWhere P l.
Proof.
  induction 1 as [x l|x y l _ IH]; intros HP; rewrite countWhere_cons.
  - unfold indicator. rewrite decide_True by done. lia.
  - specialize (IH HP). lia.
Qed.

Lemma countWhere_pos_elem {A} (P : A → Prop) `{∀ x, Decision (P x)} l :
  1 ≤ countWhere P l → ∃ x, x ∈ l ∧ P x.
Proof.
  induction l as [|y l IH]; [rewrite countWhere_nil; lia|].
  rewrite countWhere_cons. unfold indicator. destruct (decide (P y)) as [Hy|Hy].
  - intros _. exists y. split; [apply list_elem_of_here|done].
  - intros Hl. destruct IH as (x & Hx & HP); [lia|].
    exists x. split; [by apply list_elem_of_further|done].
Qed.

Lemma indexOf_None_count arr x : indexOf arr x = None → countWhere (λ c, c = x) arr = 0.
Proof.
  induction arr as [|y arr IH]; intros Hi; [reflexivity|]. simpl in Hi.
  destruct (decide (y = x)) as [|Hne]; [done|].
  destruct (indexOf arr x); [done|].
  rewrite countWhere_cons, IH by done. unfold indicator. by rewrite decide_False.
Qed.

Lemma occurrences_empty S : occurrences "" S = 0.
Proof.
  unfold occurrences. apply countWhere_none.
  eapply Forall_impl; [apply split_single|]. by intros c Hc ->.
Qed.

(** ** Which tiles each pass marks *)

Lemma matchesAt_insert s s' a j :
  j ≠ a →
  guessArr s' = <[a := ""]> (guessArr s) →
  secretArr s' = <[a := ""]> (secretArr s) →
  matchesAt s' j ↔ matchesAt s j.
Proof.
  intros Hne Hg Hs. unfold matchesAt. by rewrite Hg, Hs, !list_lookup_insert_ne.
Qed.

(** The first loop marks exactly the indices of its range at which guess
    and secret agree, whatever the arrays hold. *)
Lemma firstPass_loop_marks n : ∀ a s,
  a + n ≤ length (rowTiles s) →
  ∃ s', forEach firstPass_body (seq a n) s = Returns s'
        ∧ ∀ j, rowTiles s' !! j
               = if decide (a ≤ j ∧ j < a + n ∧ matchesAt s j)
                 then markCorrect <$> rowTiles s !! j
                 else rowTiles s !! j.
Proof.
  induction n as [|n IH]; intros a s Hlen.
  - exists s. split; [reflexivity|]. intros j. rewrite decide_False by lia. done.
  - destruct (lookup_lt_is_Some_2 (rowTiles s) a) as [t Ht]; [lia|].
    destruct (decide (matchesAt s a)) as [Hhit|Hmiss].
    + destruct Hhit as [[ch Hg] Hs]. rewrite Hg in Hs.
      pose (s1 := {| rowTiles := <[a := markCorrect t]> (rowTiles s);
                     secretArr := <[a := ""]> (secretArr s);
                     guessArr := <[a := ""]> (guessArr s) |}).
      assert (firstPass_body a s = Returns s1) as Hs1.
      { unfold firstPass_body. rewrite Hg, decide_True, Ht by done. reflexivity. }
      destruct (IH (S a) s1) as (s' & Hs' & Hrows).
      { simpl. rewrite length_insert. lia. }
      exists s'. simpl. rewrite Hs1. simpl. split; [exact Hs'|].
      intros j. rewrite Hrows. simpl.
      destruct (decide (j = a)) as [->|Hne].
      * rewrite decide_False by lia.
        rewrite decide_True by (split_and!; [lia|lia|]; split; [by eexists|congruence]).
        rewrite list_lookup_insert_eq by lia. by rewrite Ht.
      * rewrite list_lookup_insert_ne by done.
        pose proof (matchesAt_insert s s1 a j Hne eq_refl eq_refl) as Hiff.
        case_decide as H1; case_decide as H2; try reflexivity; exfalso.
        -- destruct H1 as (? & ? & ?). apply H2. split_and!; [lia|lia|by apply Hiff].
        -- destruct H2 as (? & ? & ?). apply H1. split_and!; [lia|lia|by apply Hiff].
    + assert (firstPass_body a s = Returns s) as Hs1.
      { unfold firstPass_body. destruct (guessArr s !! a) as [ch|] eqn:Hg; [|done].
        rewrite decide_False; [done|]. intros Hs. apply Hmiss.
        split; [by eexists|congruence]. }
      destruct (IH (S a) s) as (s' & Hs' & Hrows); [lia|].
      exists s'. simpl. rewrite Hs1. simpl. split; [exact Hs'|].
      intros j. rewrite Hrows.
      destruct (decide (j = a)) as [->|Hne].
      * rewrite !decide_False; [done|tauto|lia].
      * case_decide as H1; case_decide as H2; try reflexivity; exfalso.
        -- destruct H1 as (? & ? & ?). apply H2. split_and!; [lia|lia|done].
        -- destruct H2 as (? & ? & ?). apply H1. split_and!; [lia|lia|done].
Qed.

(** The second pass keeps the letters, keeps what is CORRECT, makes nothing
    else CORRECT and leaves no tile INITIAL. *)
Lemma secondPass_states tiles : ∀ sa,
  Forall2 (λ t t', char t' = char t
                   ∧ (state t' = CORRECT ↔ state t = CORRECT)
                   ∧ state t' ≠ INITIAL)
          tiles (secondPass tiles sa).1.
Proof.
  induction tiles as [|t tiles IH]; intros sa; [constructor|]. simpl.
  case_decide as Hst.
  - destruct (indexOf sa (char t)) as [idx|].
    + specialize (IH (<[idx:=""]> sa)). destruct (secondPass tiles _). simpl in *.
      constructor; [|done]. simpl. split_and!; [done| |done]. split; [done|tauto].
    + specialize (IH sa). destruct (secondPass tiles _). simpl in *.
      constructor; [|done]. simpl. split_and!; [done| |done]. split; [done|tauto].
  - specialize (IH sa). destruct (secondPass tiles _). simpl in *.
    constructor; [|done]. split_and!; [done|done|].
    destruct (decide (state t = CORRECT)) as [->|]; [done|tauto].
Qed.

(** Position by position: for a typed row the check returns tiles that keep
    their letters, are CORRECT exactly where the letter is the secret's
    letter at that index, and are never INITIAL. *)
Lemma checkGuess_positions (S : string) (row : list TileData) :
  typedRow row →
  ∃ tiles, checkGuess S (guessOfRow row) row = Returns tiles
    ∧ char <$> tiles = char <$> row
    ∧ ∀ j t, tiles !! j = Some t →
        (state t = CORRECT ↔ split S !! j = Some (char t))
        ∧ state t ≠ INITIAL.
Proof.
  intros Hrow.
  pose (s0 := {| rowTiles := row; secretArr := split S; guessArr := split (guessOfRow row) |}).
  assert (split (guessOfRow row) = char <$> row) as Hg by (by apply typedRow_guessArr).
  destruct (firstPass_loop_marks (length (guessArr s0)) 0 s0) as (s' & Hrun & Hmarks).
  { simpl. rewrite Hg, length_fmap. lia. }
  unfold checkGuess. fold s0. unfold firstPass. rewrite Hrun. simpl.
  eexists. split; [reflexivity|].
  pose proof (firstPass_chars s0 s' Hrun) as Hch. simpl in Hch.
  split; [by rewrite secondPass_chars|].
  intros j t Ht.
  pose proof (secondPass_states (rowTiles s') (secretArr s')) as Hsecond.
  destruct (Forall2_lookup_r _ _ _ _ _ Hsecond Ht) as (t1 & Ht1 & Hc & Hcorrect & Hinit).
  split; [|exact Hinit]. rewrite Hcorrect, Hc. clear Hsecond Hcorrect Hinit Hc t Ht.
  rewrite Hmarks in Ht1.
  unfold typedRow in Hrow. rewrite Forall_lookup in Hrow.
  assert (guessArr s0 !! j = char <$> row !! j) as Hgj
    by (simpl; by rewrite Hg, list_lookup_fmap).
  case_decide as Hd.
  - destruct Hd as (_ & _ & [_ Hm]). rewrite Hgj in Hm. simpl in Hm, Ht1.
    destruct (row !! j) as [t0|] eqn:Ht0; simplify_eq/=. by rewrite Hm.
  - simpl in Ht1. destruct (Hrow _ _ Ht1) as [_ Hinit]. split; [congruence|].
    intros Hs. exfalso. apply Hd. split_and!; [lia| |].
    + simpl. rewrite Hg, length_fmap. by eapply lookup_lt_Some.
    + unfold matchesAt. rewrite Hgj, Ht1. simpl. split; [by eexists|done].
Qed.

(** ** How many tiles credit a letter *)

Lemma countWhere_ext {A} (P Q : A → Prop)
    `{∀ x, Decision (P x)} `{∀ x, Decision (Q x)} l :
  (∀ x, P x ↔ Q x) → countWhere P l = countWhere Q l.
Proof.
  intros Hiff. induction l as [|x l IH]; [reflexivity|].
  rewrite !countWhere_cons, IH. unfold indicator.
  destruct (decide (P x)), (decide (Q x)); firstorder.
Qed.

Lemma claimed_unclaimed L tiles :
  countWhere (claimed L) tiles + countWhere (unclaimed L) tiles
  = countWhere (λ c, c = L) (char <$> tiles).
Proof.
  rewrite <- (countWhere_fmap char (λ c, c = L)).
  rewrite <- (countWhere_split (λ t, char t = L) (λ t, state t = CORRECT)).
  f_equal; apply countWhere_ext; intros t; reflexivity.
Qed.

Section Exact.
Variable L : string.
Hypothesis L_letter : L ≠ "".

Lemma exact_claim tiles sa i idx t :
  tiles !! i = Some t → state t ≠ CORRECT →
  sa !! idx = Some (char t) →
  countWhere (claimed L) (<[i := markCorrect t]> tiles)
    + countWhere (λ c, c = L) (<[idx := ""]> sa)
  = countWhere (claimed L) tiles + countWhere (λ c, c = L) sa.
Proof using L_letter.
  intros Ht Hst Hsa.
  pose proof (countWhere_insert (claimed L) tiles i t (markCorrect t) Ht) as H1.
  pose proof (countWhere_insert (λ c, c = L) sa idx (char t) "" Hsa) as H2.
  unfold indicator in H1, H2.
  rewrite (decide_False (P := "" = L)) in H2 by done.
  rewrite (decide_False (P := claimed L t)) in H1 by (by intros [_ ?]).
  destruct (decide (char t = L)) as [Heq|Hne].
  - rewrite (decide_True (P := claimed L (markCorrect t))) in H1 by done. lia.
  - rewrite (decide_False (P := claimed L (markCorrect t))) in H1 by (by intros [? _]).
    lia.
Qed.

Lemma firstPass_body_exact i s :
  guessArr s !! i = (char <$> rowTiles s) !! i →
  (∀ t, rowTiles s !! i = Some t → state t ≠ CORRECT) →
  i < length (rowTiles s) →
  ∃ s', firstPass_body i s = Returns s'
        ∧ (∀ j, j ≠ i → guessArr s' !! j = guessArr s !! j)
        ∧ (∀ j, j ≠ i → rowTiles s' !! j = rowTiles s !! j)
        ∧ countWhere (claimed L) (rowTiles s') + countWhere (λ c, c = L) (secretArr s')
          = countWhere (claimed L) (rowTiles s) + countWhere (λ c, c = L) (secretArr s).
Proof using L_letter.
  intros Hg Hopen Hi.
  destruct (lookup_lt_is_Some_2 _ _ Hi) as [t Ht].
  rewrite list_lookup_fmap, Ht in Hg. simpl in Hg.
  unfold firstPass_body. rewrite Hg, Ht.
  case_decide as Hs.
  - eexists. split; [reflexivity|]. simpl. split_and!.
    + intros j Hj. by apply list_lookup_insert_ne.
    + intros j Hj. by apply list_lookup_insert_ne.
    + apply exact_claim; auto.
  - exists s. auto.
Qed.

Lemma firstPass_loop_exact n : ∀ a s,
  (∀ j, a ≤ j → guessArr s !! j = (char <$> rowTiles s) !! j) →
  (∀ j t, a ≤ j → rowTiles s !! j = Some t → state t ≠ CORRECT) →
  a + n ≤ length (rowTiles s) →
  ∃ s', forEach firstPass_body (seq a n) s = Returns s'
        ∧ countWhere (claimed L) (rowTiles s') + countWhere (λ c, c = L) (secretArr s')
          = countWhere (claimed L) (rowTiles s) + countWhere (λ c, c = L) (secretArr s).
Proof using L_letter.
  induction n as [|n IH]; intros a s Hg Hopen Hlen.
  - exists s. auto.
  - destruct (firstPass_body_exact a s) as (s1 & Hs1 & Hgs & Hts & Heq);
      [by apply Hg|intros t; by apply Hopen|lia|].
    pose proof (firstPass_body_chars _ _ _ Hs1) as Hch.
    assert (length (rowTiles s1) = length (rowTiles s)) as Hl.
    { by rewrite <- (length_fmap char), Hch, length_fmap. }
    destruct (IH (S a) s1) as (s' & Hs' & Heq').
    + intros j Hj. rewrite Hgs, Hch by lia. apply Hg. lia.
    + intros j t Hj Ht. rewrite Hts in Ht by lia. eapply Hopen; [|done]. lia.
    + lia.
    + exists s'. simpl. rewrite Hs1. simpl. split; [done|lia].
Qed.

Lemma secondPass_exact tiles : ∀ sa,
  countWhere (credits L) (secondPass tiles sa).1
  = countWhere (claimed L) tiles
    + countWhere (unclaimed L) tiles `min` countWhere (λ c, c = L) sa.
Proof using L_letter.
  induction tiles as [|t tiles IH]; intros sa; [reflexivity|]. simpl.
  case_decide as Hst.
  - destruct (indexOf sa (char t)) as [idx|] eqn:Hidx.
    + apply indexOf_Some in Hidx.
      specialize (IH (<[idx:=""]> sa)). destruct (secondPass tiles _) as [r sa']. simpl in *.
      pose proof (countWhere_insert (λ c, c = L) sa idx (char t) "" Hidx) as H2.
      rewrite !countWhere_cons, IH. unfold indicator in *.
      rewrite (decide_False (P := "" = L)) in H2 by done.
      rewrite (decide_False (P := claimed L t)) by (by intros [_ ?]).
      destruct (decide (char t = L)) as [Heq|Hne].
      * rewrite (decide_True (P := credits L (mkTile _ _))) by (split; auto).
        rewrite (decide_True (P := unclaimed L t)) by done. lia.
      * rewrite (decide_False (P := credits L (mkTile _ _))) by (by intros [? _]).
        rewrite (decide_False (P := unclaimed L t)) by (by intros [? _]). lia.
    + apply indexOf_None_count in Hidx.
      specialize (IH sa). destruct (secondPass tiles _) as [r sa']. simpl in *.
      rewrite !countWhere_cons, IH. unfold indicator.
      rewrite (decide_False (P := credits L (mkTile _ _))) by (by intros [_ [?|?]]).
      rewrite (decide_False (P := claimed L t)) by (by intros [_ ?]).
      destruct (decide (unclaimed L t)) as [[Heq _]|_]; [|lia].
      rewrite Heq in Hidx. lia.
  - specialize (IH sa). destruct (secondPass tiles _) as [r sa']. simpl in *.
    assert (state t = CORRECT) as Hc by (destruct (decide (state t = CORRECT)); tauto).
    rewrite !countWhere_cons, IH. unfold indicator.
    rewrite (decide_False (P := unclaimed L t)) by (intros [_ ?]; done).
    destruct (decide (char t = L)) as [Heq|Hne].
    * rewrite (decide_True (P := credits L t)) by (split; auto).
      rewrite (decide_True (P := claimed L t)) by done. lia.
    * rewrite (decide_False (P := credits L t)) by (by intros [? _]).
      rewrite (decide_False (P := claimed L t)) by (by intros [? _]). lia.
Qed.

End Exact.

(** For a typed row, the tiles crediting [L] are as many as the guess and
    the secret have occurrences of [L] in common. *)
Lemma checkGuess_exact_letter (L S : string) (row : list TileData) :
  typedRow row →
  ∃ tiles, checkGuess S (guessOfRow row) row = Returns tiles
    ∧ countWhere (credits L) tiles
      = occurrences L (guessOfRow row) `min` occurrences L S.
Proof.
  intros Hrow.
  destruct (decide (L = "")) as [->|HL].
  { destruct (checkGuess_row_bound S row Hrow) as (tiles & Hrun & Hb).
    exists tiles. split; [done|]. specialize (Hb "").
    rewrite !occurrences_empty in *. lia. }
  pose (s0 := {| rowTiles := row; secretArr := split S; guessArr := split (guessOfRow row) |}).
  assert (split (guessOfRow row) = char <$> row) as Hg by (by apply typedRow_guessArr).
  unfold typedRow in Hrow. rewrite Forall_lookup in Hrow.
  destruct (firstPass_loop_exact L HL (length (guessArr s0)) 0 s0) as (s' & Hrun & Heq).
  { intros j _. simpl. by rewrite Hg. }
  { intros j t _ Ht. simpl in Ht. destruct (Hrow _ _ Ht) as [_ ->]. done. }
  { simpl. rewrite Hg, length_fmap. lia. }
  unfold checkGuess. fold s0. unfold firstPass. rewrite Hrun. simpl.
  eexists. split; [reflexivity|].
  rewrite (secondPass_exact L HL).
  pose proof (claimed_unclaimed L (rowTiles s')) as Hsum.
  rewrite (firstPass_chars s0 s' Hrun) in Hsum. simpl in Hsum, Heq.
  assert (countWhere (claimed L) row = 0) as Hzero.
  { apply countWhere_none. apply Forall_lookup. intros j t Ht [_ Hc].
    destruct (Hrow _ _ Ht) as [_ Hi]. congruence. }
  unfold occurrences. rewrite Hg. lia.
Qed.

(** ** The hint of a letter is the best state its tiles have had *)

Lemma bestRank_app L l1 l2 :
  bestRank L (l1 ++ l2) = bestRank L l1 `max` bestRank L l2.
Proof.
  induction l1 as [|t l1 IH]; [reflexivity|]. cbn [app bestRank].
  case_decide; rewrite IH; lia.
Qed.

Lemma rank_bound s : rank s ≤ 3.
Proof. destruct s as [[]|]; simpl; lia. Qed.

Lemma upgradeLetter_rank (next : gmap string LetterState) tile L :
  (∀ k, next !! k ≠ Some INITIAL) →
  rank (upgradeLetter next tile !! L)
  = rank (next !! L) `max` (if decide (char tile = L) then rank (Some (state tile)) else 0)
  ∧ ∀ k, upgradeLetter next tile !! k ≠ Some INITIAL.
Proof.
  intros Hno. split.
  - destruct (decide (char tile = L)) as [<-|Hne];
      [|rewrite upgradeLetter_other by done; lia].
    unfold upgradeLetter. pose proof (rank_bound (next !! char tile)) as Hb.
    specialize (Hno (char tile)).
    destruct (decide (state tile = CORRECT)) as [->|Hc].
    { rewrite lookup_insert_eq. simpl. lia. }
    destruct (decide (state tile = PRESENT ∧ next !! char tile ≠ Some CORRECT))
      as [[-> Hcur]|Hp].
    { rewrite lookup_insert_eq. destruct (next !! char tile) as [[]|]; simpl; try lia; done. }
    destruct (decide (state tile = ABSENT ∧ next !! char tile = None)) as [[-> Hcur]|Ha].
    { rewrite lookup_insert_eq, Hcur. simpl. lia. }
    destruct (state tile) eqn:Hs; simpl; try lia; try done.
    + destruct (next !! char tile) as [[]|] eqn:Hcur; simpl; try lia; try done.
      all: exfalso; apply Hp; split; [done|]; congruence.
    + destruct (next !! char tile) as [[]|] eqn:Hcur; simpl; try lia; try done.
      exfalso. by apply Ha.
  - intros k. unfold upgradeLetter.
    repeat case_decide; try apply Hno;
      (destruct (decide (char tile = k)) as [<-|Hne];
       [rewrite lookup_insert_eq; done|rewrite lookup_insert_ne by done; apply Hno]).
Qed.

Lemma updateLetterStates_rank tiles : ∀ (prev : gmap string LetterState) L,
  (∀ k, prev !! k ≠ Some INITIAL) →
  rank (updateLetterStates prev tiles !! L) = rank (prev !! L) `max` bestRank L tiles
  ∧ ∀ k, updateLetterStates prev tiles !! k ≠ Some INITIAL.
Proof.
  unfold updateLetterStates.
  induction tiles as [|t tiles IH]; intros prev L Hno; cbn [foldl bestRank].
  - split; [lia|done].
  - destruct (upgradeLetter_rank prev t L Hno) as [Hr Hno'].
    destruct (IH (upgradeLetter prev t) L Hno') as [Hr' Hno''].
    split; [|done]. rewrite Hr', Hr. case_decide; lia.
Qed.

Lemma hints_rank rows : ∀ (prev : gmap string LetterState) L,
  (∀ k, prev !! k ≠ Some INITIAL) →
  rank (foldl updateLetterStates prev rows !! L)
  = rank (prev !! L) `max` bestRank L (concat rows)
  ∧ ∀ k, foldl updateLetterStates prev rows !! k ≠ Some INITIAL.
Proof.
  induction rows as [|r rows IH]; intros prev L Hno; simpl.
  - split; [lia|done].
  - destruct (updateLetterStates_rank r prev L Hno) as [Hr Hno'].
    destruct (IH (updateLetterStates prev r) L Hno') as [Hr' Hno''].
    split; [|done]. rewrite Hr', Hr, bestRank_app. lia.
Qed.

(** ** What the intents leave alone *)

Lemma handleKeyInput_frame key st st' :
  handleKeyInput key st = Returns st' →
  secretWord st' = secretWord st ∧ currentRow st' = currentRow st
  ∧ gameStatus st' = gameStatus st
  ∧ ∀ r, r ≠ currentRow st → grid st' !! r = grid st !! r.
Proof.
  unfold handleKeyInput, assign. intros Hrun.
  repeat case_decide; simplify_eq; try done;
    destruct (grid st !! currentRow st); simplify_eq/=;
    repeat case_decide; simplify_eq/=;
    split_and!; try done; intros r Hr; by rewrite list_lookup_insert_ne.
Qed.

Lemma handleDelete_frame st st' :
  handleDelete st = Returns st' →
  secretWord st' = secretWord st ∧ currentRow st' = currentRow st
  ∧ gameStatus st' = gameStatus st
  ∧ ∀ r, r ≠ currentRow st → grid st' !! r = grid st !! r.
Proof.
  unfold handleDelete, assign. intros Hrun.
  repeat case_decide; simplify_eq; try done;
    destruct (grid st !! currentRow st); simplify_eq/=;
    repeat case_decide; simplify_eq/=;
    split_and!; try done; intros r Hr; by rewrite list_lookup_insert_ne.
Qed.

Lemma submit_frame isValid word st st' :
  settle isValid word (handleEnter st) = Returns st' →
  secretWord st' = secretWord st ∧ currentRow st ≤ currentRow st'
  ∧ ∀ r, r ≠ currentRow st → grid st' !! r = grid st !! r.
Proof.
  unfold handleEnter. intros Hrun.
  case_decide; simplify_eq/=; [done|].
  case_decide; simplify_eq/=; [done|].
  destruct (grid st !! currentRow st) as [row|] eqn:Hrow; simplify_eq/=.
  unfold handleEnter_resume in Hrun. destruct isValid; simplify_eq/=; [|done].
  destruct (checkGuess _ _ row) as [tiles| |] eqn:Hcheck; simplify_eq/=.
  unfold checkWinLoss. repeat case_decide; simpl;
    (split_and!; [done|lia|intros r Hr; by rewrite list_lookup_insert_ne]).
Qed.

Lemma perform_frame i st st' :
  perform i st = Returns st' →
  secretWord st' = secretWord st ∧ currentRow st ≤ currentRow st'
  ∧ ∀ r, r < currentRow st → grid st' !! r = grid st !! r.
Proof.
  destruct i as [c| |isValid]; simpl; intros Hrun.
  - destruct (handleKeyInput_frame _ _ _ Hrun) as (? & ? & _ & Hg).
    split_and!; [done|lia|]. intros r Hr. apply Hg. lia.
  - destruct (handleDelete_frame _ _ Hrun) as (? & ? & _ & Hg).
    split_and!; [done|lia|]. intros r Hr. apply Hg. lia.
  - destruct (submit_frame _ _ _ _ Hrun) as (? & ? & Hg).
    split_and!; [done|lia|]. intros r Hr. apply Hg. lia.
Qed.

(** ** A session at the keyboard keeps the grid tidy *)

Lemma test_A_Z_single key : test_A_Z key = true → String.length key = 1.
Proof. destruct key as [|c [|??]]; simpl; (done || discriminate). Qed.

Lemma tidy_ext st st' :
  grid st' = grid st → currentRow st' = currentRow st → currentCol st' = currentCol st →
  gameStatus st' = gameStatus st → secretWord st' = secretWord st →
  tidy st → tidy st'.
Proof. unfold tidy, verdict, wellFormed. intros -> -> -> -> ->. done. Qed.

Lemma verdict_playing st : gameStatus st = PLAYING → verdict st.
Proof. intros Hst. unfold verdict. rewrite Hst. split; discriminate. Qed.

Lemma tidy_fresh st word :
  tidy (setGameStatus PLAYING (setSecretWord word (initGame_reset st))).
Proof.
  split_and!.
  - concrete_wellFormed.
  - by left.
  - by apply verdict_playing.
  - simpl. intros r row k t Hrow Ht.
    unfold newGrid in Hrow. apply lookup_replicate in Hrow as [-> _].
    apply lookup_replicate in Ht as [-> _].
    split_and!; [lia|done|]. intros _. split; [lia|done].
Qed.

Section Tidy.
Variable st : State.
Hypothesis Htidy : tidy st.
Hypothesis Hplaying : gameStatus st = PLAYING.

Lemma tidy_not_over : ¬ (gameStatus st = WON ∨ gameStatus st = LOST).
Proof using Hplaying. rewrite Hplaying. intros [?|?]; done. Qed.

Lemma tidy_current row k t :
  grid st !! currentRow st = Some row → row !! k = Some t →
  (k < currentCol st → test_A_Z (char t) = true ∧ state t = INITIAL)
  ∧ (currentCol st ≤ k → t = emptyTile).
Proof using Htidy Hplaying.
  intros Hrow Ht. destruct Htidy as (_ & _ & _ & Hall).
  destruct (Hall _ _ _ _ Hrow Ht) as (_ & _ & Hcur).
  specialize (Hcur eq_refl). by rewrite decide_False in Hcur by apply tidy_not_over.
Qed.

(** Writing one tile of the current row and moving the cursor next to it. *)
Lemma tidy_write row col t0 :
  grid st !! currentRow st = Some row → length row = WORD_LENGTH →
  col ≤ WORD_LENGTH →
  (∀ k t, <[col - (if decide (t0 = emptyTile) then 0 else 1) := t0]> row !! k = Some t →
          (k < col → test_A_Z (char t) = true ∧ state t = INITIAL)
          ∧ (col ≤ k → t = emptyTile)) →
  tidy (setCurrentCol col
          (setGrid (<[currentRow st
                      := <[col - (if decide (t0 = emptyTile) then 0 else 1) := t0]> row]>
                      (grid st)) st)).
Proof using Htidy Hplaying.
  intros Hrow Hlen Hcol Hnew. pose proof Htidy as (Hwf & _ & _ & Hall).
  assert (currentRow st < length (grid st)) as Hr by (by eapply lookup_lt_Some).
  split_and!.
  - by apply wellFormed_write.
  - simpl. by left.
  - by apply verdict_playing.
  - simpl. intros r row' k t Hrow' Ht.
    destruct (decide (r = currentRow st)) as [->|Hne].
    + rewrite list_lookup_insert_eq in Hrow' by done. simplify_eq.
      split_and!; [lia|lia|]. intros _.
      rewrite decide_False by apply tidy_not_over. by apply Hnew.
    + rewrite list_lookup_insert_ne in Hrow' by done.
      destruct (Hall _ _ _ _ Hrow' Ht) as (Hlt & Hgt & _).
      split_and!; [done|done|lia].
Qed.

Lemma tidy_handleKeyInput key :
  test_A_Z key = true →
  ∃ st', handleKeyInput key st = Returns st' ∧ tidy st'.
Proof using Htidy Hplaying.
  intros Hkey.
  destruct (decide (currentCol st < WORD_LENGTH)) as [Hcol|Hcol];
    [|exists st; split; [apply handleKeyInput_ignored; right; lia|]; auto].
  pose proof Htidy as (Hwf & _).
  destruct (wellFormed_row st Hwf) as (row & Hrow & Hlen).
  eexists. split; [by eapply handleKeyInput_writes|].
  pose proof (tidy_write row (currentCol st + 1) (mkTile key INITIAL) Hrow Hlen) as Hw.
  assert (mkTile key INITIAL ≠ emptyTile) as Hne.
  { intros Heq. injection Heq as ->. discriminate. }
  rewrite decide_False in Hw by done.
  replace (currentCol st + 1 - 1) with (currentCol st) in Hw by lia.
  apply Hw; [lia|]. intros k t Ht.
  destruct (decide (k = currentCol st)) as [->|Hk].
  - rewrite list_lookup_insert_eq in Ht by lia. simplify_eq. split; [done|lia].
  - rewrite list_lookup_insert_ne in Ht by done.
    destruct (tidy_current row k t Hrow Ht) as [Hlt Hge]. split; intros ?; [apply Hlt|apply Hge]; lia.
Qed.

Lemma tidy_handleDelete :
  ∃ st', handleDelete st = Returns st' ∧ tidy st'.
Proof using Htidy Hplaying.
  destruct (decide (0 < currentCol st)) as [Hcol|Hcol];
    [|exists st; split; [apply handleDelete_ignored; right; lia|]; auto].
  pose proof Htidy as (Hwf & _).
  destruct (wellFormed_row st Hwf) as (row & Hrow & Hlen).
  assert (currentCol st ≤ WORD_LENGTH) as Hc by (by destruct Hwf as (? & ? & ? & ?)).
  eexists. split; [by eapply handleDelete_clears|].
  pose proof (tidy_write row (currentCol st - 1) (mkTile "" INITIAL) Hrow Hlen) as Hw.
  rewrite decide_True in Hw by done.
  replace (currentCol st - 1 - 0) with (currentCol st - 1) in Hw by lia.
  apply Hw; [lia|]. intros k t Ht.
  destruct (decide (k = currentCol st - 1)) as [->|Hk].
  - rewrite list_lookup_insert_eq in Ht by lia. simplify_eq. split; [lia|done].
  - rewrite list_lookup_insert_ne in Ht by done.
    destruct (tidy_current row k t Hrow Ht) as [Hlt Hge]. split; intros ?; [apply Hlt|apply Hge]; lia.
Qed.

Lemma tidy_typedRow row :
  currentCol st = WORD_LENGTH → grid st !! currentRow st = Some row →
  typedRow row ∧ Forall (λ t, test_A_Z (char t) = true) row.
Proof using Htidy Hplaying.
  intros Hfull Hrow. pose proof Htidy as (Hwf & _).
  destruct (wellFormed_row st Hwf) as (row' & Hrow' & Hlen). simplify_eq.
  assert (∀ k t, row !! k = Some t → test_A_Z (char t) = true ∧ state t = INITIAL) as Hall.
  { intros k t Ht. apply (tidy_current row k t Hrow Ht).
    apply lookup_lt_Some in Ht. lia. }
  split; apply Forall_lookup; intros k t Ht; destruct (Hall k t Ht) as [Hl Hi]; [|done].
  split; [by apply test_A_Z_single|done].
Qed.

Lemma tidy_handleEnter isValid word :
  ∃ st', settle isValid word (handleEnter st) = Returns st' ∧ tidy st'.
Proof using Htidy Hplaying.
  destruct (decide (currentCol st < WORD_LENGTH)) as [Hcol|Hcol].
  { eexists. split; [by rewrite handleEnter_too_short|].
    by apply (tidy_ext st). }
  pose proof Htidy as (Hwf & _ & _ & Hall).
  destruct (wellFormed_row st Hwf) as (row & Hrow & Hlen).
  assert (currentCol st = WORD_LENGTH) as Hfull
    by (destruct Hwf as (? & ? & ? & ?); lia).
  rewrite (handleEnter_awaits st row) by (done || lia). simpl.
  unfold handleEnter_resume. destruct isValid; simpl;
    [|eexists; split; [reflexivity|]; by apply (tidy_ext st)].
  destruct (tidy_typedRow row Hfull Hrow) as [Htyped Hletters].
  destruct (checkGuess_positions (secretWord st) row Htyped) as (tiles & Hrun & Hch & Hpos).
  rewrite Hrun. simpl.
  assert (length tiles = WORD_LENGTH) as Htiles
    by (by rewrite (checkGuess_length _ _ _ _ Hrun)).
  pose proof (wellFormed_insert_row st tiles Hwf Htiles) as Hwf'.
  assert (currentRow st < length (grid st)) as Hr by (by eapply lookup_lt_Some).
  assert (∀ k t, tiles !! k = Some t → test_A_Z (char t) = true ∧ state t ≠ INITIAL)
    as Hevaluated.
  { intros k t Ht. split; [|by apply (Hpos k t Ht)].
    assert ((char <$> row) !! k = Some (char t)) as Hk
      by (by rewrite <- Hch, list_lookup_fmap, Ht).
    rewrite list_lookup_fmap in Hk.
    destruct (row !! k) as [t0|] eqn:Ht0; simplify_eq/=.
    rewrite Forall_lookup in Hletters. rewrite <- Hk. by eapply Hletters. }
  assert (∀ r row' k t, <[currentRow st := tiles]> (grid st) !! r = Some row' →
            row' !! k = Some t →
            (r < S (currentRow st) → test_A_Z (char t) = true ∧ state t ≠ INITIAL)
            ∧ (currentRow st < r → t = emptyTile)) as Hgrid.
  { intros r row' k t Hrow' Ht.
    destruct (decide (r = currentRow st)) as [->|Hne].
    - rewrite list_lookup_insert_eq in Hrow' by done. simplify_eq.
      split; [intros _; by eapply Hevaluated|lia].
    - rewrite list_lookup_insert_ne in Hrow' by done.
      destruct (Hall _ _ _ _ Hrow' Ht) as (Hlt & Hgt & _).
      split; [intros ?; apply Hlt; lia|done]. }
  eexists. split; [reflexivity|]. unfold checkWinLoss.
  destruct (decide (guessOfRow row = secretWord st)) as [Hwin|Hwin];
    [|destruct (decide (currentRow st = MAX_GUESSES - 1)) as [Hlast|Hlast]].
  - split_and!; [exact Hwf'|by right; left| |]; simpl.
    { split; [discriminate|]. intros _ row' Hrow'. simpl in Hrow'.
      rewrite list_lookup_insert_eq in Hrow' by done. simplify_eq.
      assert (guessOfRow row' = guessOfRow row) as Hsame
        by (unfold guessOfRow; by rewrite Hch).
      split; [by rewrite Hsame|].
      apply Forall_lookup. intros k t Ht. apply (Hpos k t Ht).
      rewrite <- Hwin, (typedRow_guessArr row Htyped), <- Hch.
      by rewrite list_lookup_fmap, Ht. }
    intros r row' k t Hrow' Ht. destruct (Hgrid _ _ _ _ Hrow' Ht) as [Hle Hgt].
    split_and!; [intros ?; apply Hle; lia|done|].
    intros ->. apply Hle. lia.
  - split_and!; [exact Hwf'|by right; right| |]; simpl.
    { split; [|discriminate]. intros _. split; [done|]. intros row' Hrow'. simpl in Hrow'.
      rewrite list_lookup_insert_eq in Hrow' by done. simplify_eq.
      unfold guessOfRow in *. by rewrite Hch. }
    intros r row' k t Hrow' Ht. destruct (Hgrid _ _ _ _ Hrow' Ht) as [Hle Hgt].
    split_and!; [intros ?; apply Hle; lia|done|].
    intros ->. apply Hle. lia.
  - split_and!.
    + destruct Hwf' as (? & ? & ? & ?). unfold wellFormed in *. simpl in *.
      unfold MAX_GUESSES in *. split_and!; auto; lia.
    + by left.
    + by apply verdict_playing.
    + simpl. intros r row' k t Hrow' Ht. destruct (Hgrid _ _ _ _ Hrow' Ht) as [Hle Hgt].
      split_and!; [intros ?; apply Hle; lia|intros ?; apply Hgt; lia|].
      intros ->. split; [lia|intros _; apply Hgt; lia].
Qed.

End Tidy.

Section SessionLemmas.
Variable toUpperCase : string → string.

Lemma tidy_restart st p :
  ∃ st', settle (validates p) (fetches p) (initGame st) = Returns st' ∧ tidy st'.
Proof. eexists. split; [reflexivity|]. apply tidy_fresh. Qed.

Lemma tidy_react ev p st :
  tidy st → ∃ st', react toUpperCase ev p st = Returns st' ∧ tidy st'.
Proof using Type.
  intros Htidy. unfold react.
  destruct ev as [e| |]; simpl.
  - unfold handleKeyDown.
    destruct (ctrlKey e || metaKey e || altKey e); [by exists st|].
    destruct (decide (gameStatus st = PLAYING)) as [Hst|Hst].
    + case_decide.
      { rewrite decide_False by (rewrite Hst; intros [?|?]; done).
        by apply tidy_handleEnter. }
      case_decide; [by apply tidy_handleDelete|].
      destruct (test_A_Z (toUpperCase (key e))) eqn:Htest; [|by exists st].
      by apply tidy_handleKeyInput.
    + case_decide.
      { case_decide; [apply tidy_restart|].
        exists st. by rewrite handleEnter_ignored. }
      case_decide.
      { exists st. split; [|done]. simpl. apply handleDelete_ignored. by left. }
      destruct (test_A_Z (toUpperCase (key e))); [|by exists st].
      exists st. split; [|done]. simpl. apply handleKeyInput_ignored. by left.
  - unfold Controls. case_decide; [apply tidy_restart|by exists st].
  - eexists. split; [reflexivity|]. by apply (tidy_ext st).
Qed.

Lemma session_tidy evs : ∀ st,
  tidy st → ∃ st', session toUpperCase evs st = Returns st' ∧ tidy st'.
Proof using Type.
  induction evs as [|[ev p] rest IH]; intros st Htidy; [by exists st|]. simpl.
  destruct (tidy_react ev p st Htidy) as (st1 & -> & Htidy1). simpl. by apply IH.
Qed.

End SessionLemmas.

Lemma tidy_startState word : tidy (startState word).
Proof. apply tidy_fresh. Qed.

(** ** The hints agree with the grid *)

Lemma agree_ext st st' :
  grid st' = grid st → currentRow st' = currentRow st →
  gameStatus st' = gameStatus st → letterStates st' = letterStates st →
  hintsAgree st → hintsAgree st'.
Proof. unfold hintsAgree, evaluatedRows. intros -> -> -> ->. done. Qed.

Lemma agree_fresh st word :
  hintsAgree (setGameStatus PLAYING (setSecretWord word (initGame_reset st))).
Proof. reflexivity. Qed.

Lemma evaluatedRows_playing st :
  gameStatus st = PLAYING → evaluatedRows st = take (currentRow st) (grid st).
Proof.
  intros Hst. unfold evaluatedRows. rewrite Hst.
  by rewrite decide_False by (intros [?|?]; done).
Qed.

(** Rewriting the current row of a game that is on touches no evaluated
    row. *)
Lemma agree_write st row col :
  gameStatus st = PLAYING → hintsAgree st →
  hintsAgree (setCurrentCol col (setGrid (<[currentRow st := row]> (grid st)) st)).
Proof.
  intros Hst Hagree. unfold hintsAgree in *.
  rewrite evaluatedRows_playing in * by done. simpl.
  by rewrite take_insert_ge.
Qed.

Lemma agree_handleKeyInput key st st' :
  handleKeyInput key st = Returns st' → hintsAgree st → hintsAgree st'.
Proof.
  intros Hrun Hagree.
  destruct (decide (gameStatus st = PLAYING)) as [Hst|Hst];
    [|rewrite handleKeyInput_ignored in Hrun by (by left); by simplify_eq].
  unfold handleKeyInput, assign in Hrun.
  repeat case_decide; simplify_eq; try done;
    destruct (grid st !! currentRow st); simplify_eq/=;
    repeat case_decide; simplify_eq/=; by apply agree_write.
Qed.

Lemma agree_handleDelete st st' :
  handleDelete st = Returns st' → hintsAgree st → hintsAgree st'.
Proof.
  intros Hrun Hagree.
  destruct (decide (gameStatus st = PLAYING)) as [Hst|Hst];
    [|rewrite handleDelete_ignored in Hrun by (by left); by simplify_eq].
  unfold handleDelete, assign in Hrun.
  repeat case_decide; simplify_eq; try done;
    destruct (grid st !! currentRow st); simplify_eq/=;
    repeat case_decide; simplify_eq/=; by apply agree_write.
Qed.

Lemma agree_handleEnter isValid word st st' :
  settle isValid word (handleEnter st) = Returns st' → hintsAgree st → hintsAgree st'.
Proof.
  intros Hrun Hagree.
  destruct (decide (gameStatus st = PLAYING)) as [Hst|Hst];
    [|rewrite handleEnter_ignored in Hrun by done; simpl in Hrun; by simplify_eq].
  destruct (decide (currentCol st < WORD_LENGTH)) as [Hcol|Hcol].
  { rewrite handleEnter_too_short in Hrun by done. simplify_eq/=.
    by apply (agree_ext st). }
  unfold handleEnter in Hrun.
  rewrite decide_False in Hrun by (intros Hn; by apply Hn).
  rewrite decide_False in Hrun by done.
  destruct (grid st !! currentRow st) as [row|] eqn:Hrow; simplify_eq/=.
  assert (currentRow st < length (grid st)) as Hr by (by eapply lookup_lt_Some).
  unfold handleEnter_resume in Hrun. destruct isValid; simplify_eq/=;
    [|by apply (agree_ext st)].
  destruct (checkGuess _ _ row) as [tiles| |] eqn:Hcheck; simplify_eq/=.
  unfold hintsAgree in *. rewrite evaluatedRows_playing in Hagree by done.
  assert (take (currentRow st + 1) (<[currentRow st := tiles]> (grid st))
          = take (currentRow st) (grid st) ++ [tiles]) as Htake.
  { replace (currentRow st + 1) with (S (currentRow st)) by lia.
    rewrite (take_S_r _ _ tiles) by (by apply list_lookup_insert_eq).
    by rewrite take_insert_ge. }
  unfold checkWinLoss, evaluatedRows.
  destruct (decide (guessOfRow row = secretWord st));
    [|destruct (decide (currentRow st = MAX_GUESSES - 1))]; simpl;
    rewrite Htake, foldl_app, <- Hagree; reflexivity.
Qed.

Section SessionAgree.
Variable toUpperCase : string → string.

Lemma agree_react ev p st st' :
  react toUpperCase ev p st = Returns st' → hintsAgree st → hintsAgree st'.
Proof using Type.
  unfold react. intros Hrun Hagree.
  destruct ev as [e| |]; simpl in Hrun.
  - unfold handleKeyDown in Hrun.
    destruct (ctrlKey e || metaKey e || altKey e); [by simplify_eq/=|].
    case_decide.
    { case_decide; [simpl in Hrun; simplify_eq; apply agree_fresh|].
      by eapply agree_handleEnter. }
    case_decide; [simpl in Hrun; by eapply agree_handleDelete|].
    destruct (test_A_Z (toUpperCase (key e))); simpl in Hrun;
      [by eapply agree_handleKeyInput|by simplify_eq].
  - unfold Controls in Hrun. case_decide; simpl in Hrun; simplify_eq;
      [apply agree_fresh|done].
  - simplify_eq. by apply (agree_ext st).
Qed.

Lemma session_agree evs : ∀ st st',
  session toUpperCase evs st = Returns st' → hintsAgree st → hintsAgree st'.
Proof using Type.
  induction evs as [|[ev p] rest IH]; intros st st' Hrun Hagree; simplify_eq/=; [done|].
  destruct (react toUpperCase ev p st) as [st1| |] eqn:Hstep; simplify_eq/=.
  eapply IH; [exact Hrun|]. by eapply agree_react.
Qed.

End SessionAgree.

(** ** A session run on the model *)

Example session_win_then_restart :
  (λ st, (gameStatus st, secretWord st, currentRow st, currentCol st,
          grid st !! 0, letterStates st !! "C"))
    <$> stateOf (session asciiToUpperCase
                   (keystrokes ["c"; "r"; "a"; "n"; "x"; "Backspace"; "e"; "7"; "Enter"]
                               true "CRANE")
                   (startState "CRANE"))
  = Some (WON, "CRANE", 0, 5, Some (markCorrect <$> tilesOf "CRANE"), Some CORRECT)
  ∧ stateOf (session asciiToUpperCase
               (keystrokes ["c"; "r"; "a"; "n"; "e"; "Enter"; "Enter"] true "ALLOY")
               (startState "CRANE"))
    = Some (startState "ALLOY").
Proof. split; vm_compute; reflexivity. Qed.

(** * Part VI: further properties, stated *)



(** X2. Typing into a full row and deleting in an empty row are dropped:
    with currentCol at WORD_LENGTH or beyond, any run of typed characters
    returns the state unchanged, and so does any run of deletes with
    currentCol at 0. *)
Theorem X2_overflow_and_underflow (st : State) (intents : list Intent) :
  (WORD_LENGTH ≤ currentCol st ∧ ∃ cs, intents = TypeChar <$> cs)
  ∨ (currentCol st = 0 ∧ ∃ n, intents = replicate n Delete) →
  play intents st = Returns st.
Proof.
  intros [[Hcol [cs ->]]|[Hcol [n ->]]].
  - induction cs as [|c cs IH]; [reflexivity|]. simpl.
    rewrite handleKeyInput_ignored by (by right). exact IH.
  - induction n as [|n IH]; [reflexivity|]. simpl.
    rewrite handleDelete_ignored by (by right). exact IH.
Qed.

Lemma X2_overflow_and_underflow_witness :
  let st := typedState "CRANE" "BRAIN" in
  let intents := typeWord "XYZ" in
  ((WORD_LENGTH ≤ currentCol st ∧ ∃ cs, intents = TypeChar <$> cs)
   ∨ (currentCol st = 0 ∧ ∃ n, intents = replicate n Delete))
  ∧ play intents st = Returns st.
Proof.
  intros st intents.
  assert ((WORD_LENGTH ≤ currentCol st ∧ ∃ cs, intents = TypeChar <$> cs)
          ∨ (currentCol st = 0 ∧ ∃ n, intents = replicate n Delete)) as H.
  { left. split; [vm_compute; lia|]. by eexists. }
  split; [exact H|]. exact (X2_overflow_and_underflow st intents H).
Defined.

(** X3. In a well-formed PLAYING state whose tile at the cursor is the empty
    tile, handleKeyInput(c) followed by handleDelete gives back exactly the
    state it started from. *)
Theorem X3_type_then_delete (c : string) (st : State) :
  wellFormed st → gameStatus st = PLAYING → currentCol st < WORD_LENGTH →
  tileAt (grid st) (currentRow st) (currentCol st) = Some emptyTile →
  ∃ st1, handleKeyInput c st = Returns st1 ∧ handleDelete st1 = Returns st.
Proof.
  intros Hwf Hst Hcol Hempty.
  destruct (wellFormed_row st Hwf) as (row & Hrow & Hlen).
  assert (currentRow st < length (grid st)) as Hr by (by eapply lookup_lt_Some).
  unfold tileAt in Hempty. rewrite Hrow in Hempty. simpl in Hempty.
  eexists. split; [by eapply handleKeyInput_writes|].
  erewrite handleDelete_clears; simpl; [|done|lia|lia| |].
  - f_equal. replace (currentCol st + 1 - 1) with (currentCol st) by lia.
    rewrite list_insert_insert_eq, list_insert_insert_eq.
    rewrite (list_insert_id row) by done. rewrite list_insert_id by done.
    by destruct st.
  - by apply list_lookup_insert_eq.
  - by rewrite length_insert.
Qed.

Lemma X3_type_then_delete_witness :
  let st := typedState "CRANE" "AB" in
  wellFormed st ∧ gameStatus st = PLAYING ∧ currentCol st < WORD_LENGTH
  ∧ tileAt (grid st) (currentRow st) (currentCol st) = Some emptyTile
  ∧ ∃ st1, handleKeyInput "Q" st = Returns st1 ∧ handleDelete st1 = Returns st.
Proof.
  intros st.
  assert (wellFormed st) as Hwf by concrete_wellFormed.
  assert (currentCol st < WORD_LENGTH) as Hcol by (vm_compute; lia).
  split_and!; [exact Hwf|reflexivity|exact Hcol|reflexivity|].
  exact (X3_type_then_delete "Q" st Hwf eq_refl Hcol eq_refl).
Defined.

(** X4. For a typed row (one letter per tile, nothing evaluated), the check
    returns tiles with the same letters in which the tile at index j is
    CORRECT exactly when its letter is the secret's letter at index j, and
    in which no tile is left INITIAL. *)
Theorem X4_correct_iff_same_position (S : string) (row : list TileData) :
  typedRow row →
  ∃ tiles, checkGuess S (guessOfRow row) row = Returns tiles
    ∧ char <$> tiles = char <$> row
    ∧ ∀ j t, tiles !! j = Some t →
        (state t = CORRECT ↔ split S !! j = Some (char t))
        ∧ state t ≠ INITIAL.
Proof. apply checkGuess_positions. Qed.

Lemma X4_correct_iff_same_position_witness :
  typedRow (tilesOf "REACT")
  ∧ ∃ tiles, checkGuess "CRANE" (guessOfRow (tilesOf "REACT")) (tilesOf "REACT") = Returns tiles
      ∧ char <$> tiles = char <$> tilesOf "REACT"
      ∧ ∀ j t, tiles !! j = Some t →
          (state t = CORRECT ↔ split "CRANE" !! j = Some (char t))
          ∧ state t ≠ INITIAL.
Proof.
  split; [apply typedRow_tilesOf|].
  exact (X4_correct_iff_same_position "CRANE" (tilesOf "REACT") (typedRow_tilesOf "REACT")).
Defined.

(** X5. For a typed row and every letter L, the number of tiles showing L
    that end PRESENT or CORRECT is exactly the smaller of the number of
    occurrences of L in the guess and in the secret. *)
Theorem X5_credit_is_common_count (S : string) (row : list TileData) :
  typedRow row →
  ∃ tiles, checkGuess S (guessOfRow row) row = Returns tiles
    ∧ ∀ L, countWhere (credits L) tiles
           = occurrences L (guessOfRow row) `min` occurrences L S.
Proof.
  intros Hrow.
  destruct (checkGuess_exact_letter "" S row Hrow) as (tiles & Hrun & _).
  exists tiles. split; [exact Hrun|]. intros L.
  destruct (checkGuess_exact_letter L S row Hrow) as (tiles' & Hrun' & Heq).
  rewrite Hrun in Hrun'. by simplify_eq.
Qed.

Lemma X5_credit_is_common_count_witness :
  typedRow (tilesOf "LLAMA")
  ∧ ∃ tiles, checkGuess "ALLOY" (guessOfRow (tilesOf "LLAMA")) (tilesOf "LLAMA") = Returns tiles
      ∧ ∀ L, countWhere (credits L) tiles
             = occurrences L (guessOfRow (tilesOf "LLAMA")) `min` occurrences L "ALLOY".
Proof.
  split; [apply typedRow_tilesOf|].
  exact (X5_credit_is_common_count "ALLOY" (tilesOf "LLAMA") (typedRow_tilesOf "LLAMA")).
Defined.

(** X6. For a typed row, a tile whose letter does not occur in the secret
    ends ABSENT, and a tile that ends PRESENT shows a letter that occurs in
    the secret, but not at the tile's own index. *)
Theorem X6_absent_and_present (S : string) (row : list TileData) :
  typedRow row →
  ∃ tiles, checkGuess S (guessOfRow row) row = Returns tiles
    ∧ ∀ j t, tiles !! j = Some t →
        (char t ∉ split S → state t = ABSENT)
        ∧ (state t = PRESENT → char t ∈ split S ∧ split S !! j ≠ Some (char t)).
Proof.
  intros Hrow.
  destruct (checkGuess_positions S row Hrow) as (tiles & Hrun & _ & Hpos).
  destruct (checkGuess_row_bound S row Hrow) as (tiles' & Hrun' & Hb).
  rewrite Hrun in Hrun'. simplify_eq.
  exists tiles'. split; [exact Hrun|]. intros j t Ht.
  destruct (Hpos j t Ht) as [Hcorrect Hinit].
  assert (credits (char t) t → char t ∈ split S) as Hin.
  { intros Hc.
    assert (1 ≤ occurrences (char t) S) as Hocc.
    { etrans; [|apply Hb]. eapply countWhere_elem; [|exact Hc].
      by eapply list_elem_of_lookup_2. }
    apply countWhere_pos_elem in Hocc as (x & Hx & ->). exact Hx. }
  split.
  - intros Hnot. destruct (state t) eqn:Hs; [done| | |done].
    + exfalso. apply Hnot, Hin. split; auto.
    + exfalso. apply Hnot, Hin. split; auto.
  - intros Hp. split; [apply Hin; split; auto|].
    intros Hsame. apply Hcorrect in Hsame. congruence.
Qed.

Lemma X6_absent_and_present_witness :
  typedRow (tilesOf "REACT")
  ∧ ∃ tiles, checkGuess "CRANE" (guessOfRow (tilesOf "REACT")) (tilesOf "REACT") = Returns tiles
      ∧ ∀ j t, tiles !! j = Some t →
          (char t ∉ split "CRANE" → state t = ABSENT)
          ∧ (state t = PRESENT →
             char t ∈ split "CRANE" ∧ split "CRANE" !! j ≠ Some (char t)).
Proof.
  split; [apply typedRow_tilesOf|].
  exact (X6_absent_and_present "CRANE" (tilesOf "REACT") (typedRow_tilesOf "REACT")).
Defined.

(** X7. Starting from the empty mapping, after any sequence of rows has gone
    through the keyboard update the hint of a letter L is the best state, in
    the order INITIAL < ABSENT < PRESENT < CORRECT, that any tile showing L
    has in those rows; it is missing when no such tile has been evaluated,
    and the mapping never stores INITIAL. *)
Theorem X7_hint_is_best_state (L : string) (rows : list (list TileData)) :
  rank (foldl updateLetterStates ∅ rows !! L) = bestRank L (concat rows)
  ∧ foldl updateLetterStates ∅ rows !! L ≠ Some INITIAL
  ∧ (bestRank L (concat rows) = 0 ↔ foldl updateLetterStates ∅ rows !! L = None).
Proof.
  destruct (hints_rank rows ∅ L) as [Hr Hno]; [intros k; by rewrite lookup_empty|].
  rewrite lookup_empty in Hr. simpl in Hr. specialize (Hno L).
  split_and!; [lia|done|]. rewrite <- Hr.
  destruct (foldl updateLetterStates ∅ rows !! L) as [[]|]; simpl; split; done || lia.
Qed.

(** A full typed row that is accepted and is not the secret word: what
    handleEnter leaves behind, before the win/loss branch is looked at. *)
Lemma submit_wrong_guess (st : State) (row : list TileData) (word : string) :
  gameStatus st = PLAYING → WORD_LENGTH ≤ currentCol st →
  grid st !! currentRow st = Some row → typedRow row →
  guessOfRow row ≠ secretWord st →
  ∃ tiles,
    checkGuess (secretWord st) (guessOfRow row) row = Returns tiles
    ∧ settle true word (handleEnter st)
      = Returns
          (if decide (currentRow st = MAX_GUESSES - 1) then
             setMessage (Some (secretWord st))
               (setGameStatus LOST
                  (setLetterStates (updateLetterStates (letterStates st) tiles)
                     (setGrid (<[currentRow st := tiles]> (grid st)) st)))
           else
             setCurrentCol 0
               (setCurrentRow (currentRow st + 1)
                  (setLetterStates (updateLetterStates (letterStates st) tiles)
                     (setGrid (<[currentRow st := tiles]> (grid st)) st)))).
Proof.
  intros Hst Hcol Hrow Htyped Hwrong.
  destruct (checkGuess_row_bound (secretWord st) row Htyped) as (tiles & Hrun & _).
  exists tiles. split; [exact Hrun|].
  rewrite (handleEnter_awaits st row) by done. simpl.
  rewrite Hrun. simpl. unfold checkWinLoss.
  rewrite decide_False by done. f_equal.
  change (MAX_GUESSES - 1) with 4.
  destruct (decide (currentRow st = 4)); [by destruct st|].
  clear Hrow Hwrong Hrun. destruct st; simpl in *; by subst.
Qed.

(** X8. In a PLAYING state whose current row is full and typed, is not the
    last row and does not spell the secret word, a submit the provider
    accepts evaluates the row in place, feeds it to the keyboard update,
    moves to the start of the next row, and leaves status PLAYING, the secret
    word, the message and every other row as they were. *)
Theorem X8_wrong_guess_advances (st : State) (row : list TileData) (word : string) :
  gameStatus st = PLAYING → WORD_LENGTH ≤ currentCol st →
  grid st !! currentRow st = Some row → typedRow row →
  guessOfRow row ≠ secretWord st →
  currentRow st ≠ MAX_GUESSES - 1 →
  ∃ tiles st',
    checkGuess (secretWord st) (guessOfRow row) row = Returns tiles
    ∧ settle true word (handleEnter st) = Returns st'
    ∧ gameStatus st' = PLAYING
    ∧ currentRow st' = currentRow st + 1
    ∧ currentCol st' = 0
    ∧ grid st' = <[currentRow st := tiles]> (grid st)
    ∧ letterStates st' = updateLetterStates (letterStates st) tiles
    ∧ secretWord st' = secretWord st
    ∧ message st' = message st.
Proof.
  intros Hst Hcol Hrow Htyped Hwrong Hlast.
  destruct (submit_wrong_guess st row word Hst Hcol Hrow Htyped Hwrong)
    as (tiles & Hrun & Hsubmit).
  rewrite decide_False in Hsubmit by done.
  exists tiles. eexists. split; [exact Hrun|]. split; [exact Hsubmit|].
  simpl. split_and!; done.
Qed.

Lemma X8_wrong_guess_advances_witness :
  let st := typedState "CRANE" "REACT" in
  gameStatus st = PLAYING ∧ WORD_LENGTH ≤ currentCol st
  ∧ grid st !! currentRow st = Some (tilesOf "REACT") ∧ typedRow (tilesOf "REACT")
  ∧ guessOfRow (tilesOf "REACT") ≠ secretWord st
  ∧ currentRow st ≠ MAX_GUESSES - 1
  ∧ ∃ tiles st',
      checkGuess (secretWord st) (guessOfRow (tilesOf "REACT")) (tilesOf "REACT")
      = Returns tiles
      ∧ settle true "" (handleEnter st) = Returns st'
      ∧ gameStatus st' = PLAYING
      ∧ currentRow st' = currentRow st + 1
      ∧ currentCol st' = 0
      ∧ grid st' = <[currentRow st := tiles]> (grid st)
      ∧ letterStates st' = updateLetterStates (letterStates st) tiles
      ∧ secretWord st' = secretWord st
      ∧ message st' = message st.
Proof.
  intros st.
  assert (WORD_LENGTH ≤ currentCol st) as Hcol by (vm_compute; lia).
  assert (guessOfRow (tilesOf "REACT") ≠ secretWord st) as Hwrong by discriminate.
  assert (currentRow st ≠ MAX_GUESSES - 1) as Hlast by discriminate.
  split_and!; [reflexivity|exact Hcol|reflexivity|apply typedRow_tilesOf
              |exact Hwrong|exact Hlast|].
  exact (X8_wrong_guess_advances st (tilesOf "REACT") "" eq_refl Hcol eq_refl
           (typedRow_tilesOf "REACT") Hwrong Hlast).
Defined.

(** X9. In a PLAYING state on the last row, with that row full and typed and
    not spelling the secret word, a submit the provider accepts evaluates
    the row, sets the status to LOST and puts the secret word in the
    message; currentRow and currentCol stay where they were. *)
Theorem X9_last_wrong_guess_loses (st : State) (row : list TileData) (word : string) :
  gameStatus st = PLAYING → WORD_LENGTH ≤ currentCol st →
  grid st !! currentRow st = Some row → typedRow row →
  guessOfRow row ≠ secretWord st →
  currentRow st = MAX_GUESSES - 1 →
  ∃ tiles st',
    checkGuess (secretWord st) (guessOfRow row) row = Returns tiles
    ∧ settle true word (handleEnter st) = Returns st'
    ∧ gameStatus st' = LOST
    ∧ message st' = Some (secretWord st)
    ∧ currentRow st' = currentRow st
    ∧ currentCol st' = currentCol st
    ∧ grid st' = <[currentRow st := tiles]> (grid st)
    ∧ letterStates st' = updateLetterStates (letterStates st) tiles
    ∧ secretWord st' = secretWord st.
Proof.
  intros Hst Hcol Hrow Htyped Hwrong Hlast.
  destruct (submit_wrong_guess st row word Hst Hcol Hrow Htyped Hwrong)
    as (tiles & Hrun & Hsubmit).
  rewrite decide_True in Hsubmit by done.
  exists tiles. eexists. split; [exact Hrun|]. split; [exact Hsubmit|].
  simpl. split_and!; done.
Qed.

Lemma X9_last_wrong_guess_loses_witness :
  let st := setCurrentCol 5
              (setGrid (<[4 := tilesOf "BRAIN"]> newGrid)
                 (setCurrentRow 4 (startState "CRANE"))) in
  gameStatus st = PLAYING ∧ WORD_LENGTH ≤ currentCol st
  ∧ grid st !! currentRow st = Some (tilesOf "BRAIN") ∧ typedRow (tilesOf "BRAIN")
  ∧ guessOfRow (tilesOf "BRAIN") ≠ secretWord st
  ∧ currentRow st = MAX_GUESSES - 1
  ∧ ∃ tiles st',
      checkGuess (secretWord st) (guessOfRow (tilesOf "BRAIN")) (tilesOf "BRAIN")
      = Returns tiles
      ∧ settle true "" (handleEnter st) = Returns st'
      ∧ gameStatus st' = LOST
      ∧ message st' = Some (secretWord st)
      ∧ currentRow st' = currentRow st
      ∧ currentCol st' = currentCol st
      ∧ grid st' = <[currentRow st := tiles]> (grid st)
      ∧ letterStates st' = updateLetterStates (letterStates st) tiles
      ∧ secretWord st' = secretWord st.
Proof.
  intros st.
  assert (WORD_LENGTH ≤ currentCol st) as Hcol by (vm_compute; lia).
  assert (guessOfRow (tilesOf "BRAIN") ≠ secretWord st) as Hwrong by discriminate.
  split_and!; [reflexivity|exact Hcol|reflexivity|apply typedRow_tilesOf
              |exact Hwrong|reflexivity|].
  exact (X9_last_wrong_guess_loses st (tilesOf "BRAIN") "" eq_refl Hcol eq_refl
           (typedRow_tilesOf "BRAIN") Hwrong eq_refl).
Defined.

(** X10. Whatever intents are performed and whatever the provider answers,
    a run that returns has not changed the secret word, has not moved
    currentRow back, and has left every row above the row it started on
    exactly as it was. *)
Theorem X10_evaluated_rows_are_final (intents : list Intent) (st st' : State) :
  play intents st = Returns st' →
  secretWord st' = secretWord st
  ∧ currentRow st ≤ currentRow st'
  ∧ ∀ r, r < currentRow st → grid st' !! r = grid st !! r.
Proof.
  revert st. induction intents as [|i rest IH]; intros st Hrun; simplify_eq/=.
  { split_and!; [done|lia|done]. }
  destruct (perform i st) as [st1| |] eqn:Hstep; simplify_eq/=.
  destruct (perform_frame _ _ _ Hstep) as (Hs1 & Hr1 & Hg1).
  destruct (IH _ Hrun) as (Hs2 & Hr2 & Hg2).
  split_and!; [congruence|lia|].
  intros r Hr. rewrite Hg2 by lia. by apply Hg1.
Qed.

Lemma X10_evaluated_rows_are_final_witness :
  let intents := typeWord "REACT" ++ [Submit true] ++ typeWord "CRAB" ++ [Delete] in
  let st := setCurrentRow 1 (setGrid (<[0 := markCorrect <$> tilesOf "BRAIN"]> newGrid)
                               (startState "CRANE")) in
  ∃ st', play intents st = Returns st'
    ∧ secretWord st' = secretWord st
    ∧ currentRow st ≤ currentRow st'
    ∧ ∀ r, r < currentRow st → grid st' !! r = grid st !! r.
Proof.
  intros intents st.
  destruct (play intents st) as [st'| |] eqn:Hrun; [|by vm_compute in Hrun..].
  exists st'. split; [reflexivity|].
  exact (X10_evaluated_rows_are_final intents st st' Hrun).
Defined.

(** X11. From a fresh game, whatever keys go down (with any toUpperCase),
    whenever the Controls button is clicked or a timer fires, and whatever
    the provider answers, no handler throws, the grid keeps its
    MAX_GUESSES x WORD_LENGTH shape with the cursor inside, and every tile
    holds either the empty string or a single letter A-Z. *)
Theorem X11_session_keeps_letters (toUpperCase : string → string)
    (evs : list (UIEvent * Provider)) (word : string) :
  ∃ st', session toUpperCase evs (startState word) = Returns st'
    ∧ wellFormed st'
    ∧ ∀ r k t, tileAt (grid st') r k = Some t →
        char t = "" ∨ test_A_Z (char t) = true.
Proof.
  destruct (session_tidy toUpperCase evs (startState word) (tidy_startState word))
    as (st' & Hrun & Hwf & _ & _ & Hall).
  exists st'. split_and!; [done..|].
  intros r k t Ht. unfold tileAt in Ht.
  destruct (grid st' !! r) as [row|] eqn:Hrow; simplify_eq/=.
  destruct (Hall _ _ _ _ Hrow Ht) as (Hlt & Hgt & Hcur).
  destruct (lt_eq_lt_dec r (currentRow st')) as [[Hr|Hr]|Hr].
  - right. by apply Hlt.
  - specialize (Hcur Hr). case_decide; [right; by apply Hcur|].
    destruct Hcur as [Hbefore Hafter].
    destruct (decide (k < currentCol st')); [right; by apply Hbefore|].
    left. rewrite Hafter by lia. done.
  - left. by rewrite Hgt.
Qed.

(** X12. In every state such a session reaches, the rows below the current
    one are empty, and while the status is PLAYING the current row holds
    unevaluated letters before the cursor and empty tiles from the cursor
    on. *)
Theorem X12_session_cursor (toUpperCase : string → string)
    (evs : list (UIEvent * Provider)) (word : string) :
  ∃ st', session toUpperCase evs (startState word) = Returns st'
    ∧ ∀ r k t, tileAt (grid st') r k = Some t →
        (currentRow st' < r → t = emptyTile)
        ∧ (gameStatus st' = PLAYING → r = currentRow st' →
           (k < currentCol st' → test_A_Z (char t) = true ∧ state t = INITIAL)
           ∧ (currentCol st' ≤ k → t = emptyTile)).
Proof.
  destruct (session_tidy toUpperCase evs (startState word) (tidy_startState word))
    as (st' & Hrun & Htidy).
  exists st'. split; [done|].
  intros r k t Ht. unfold tileAt in Ht.
  destruct (grid st' !! r) as [row|] eqn:Hrow; simplify_eq/=.
  split.
  - destruct Htidy as (_ & _ & _ & Hall). by apply (Hall _ _ _ _ Hrow Ht).
  - intros Hst ->. by apply (tidy_current st' Htidy Hst row).
Qed.

(** X13. In every state such a session reaches, each tile of a row that
    Grid renders as revealed (rowIndex < currentRow) holds a letter and an
    evaluation, and while the status is PLAYING no tile of any other row
    holds one. *)
Theorem X13_revealed_rows_are_evaluated (toUpperCase : string → string)
    (evs : list (UIEvent * Provider)) (word : string) :
  ∃ st', session toUpperCase evs (startState word) = Returns st'
    ∧ ∀ r k t, tileAt (grid st') r k = Some t →
        (isRevealed (currentRow st') r = true →
         test_A_Z (char t) = true ∧ state t ≠ INITIAL)
        ∧ (gameStatus st' = PLAYING → isRevealed (currentRow st') r = false →
           state t = INITIAL).
Proof.
  destruct (session_tidy toUpperCase evs (startState word) (tidy_startState word))
    as (st' & Hrun & Htidy).
  exists st'. split; [done|].
  intros r k t Ht. unfold tileAt in Ht.
  destruct (grid st' !! r) as [row|] eqn:Hrow; simplify_eq/=.
  pose proof Htidy as (_ & _ & _ & Hall).
  destruct (Hall _ _ _ _ Hrow Ht) as (Hlt & Hgt & _).
  unfold isRevealed. split.
  - intros Hrev. apply bool_decide_eq_true in Hrev. by apply Hlt.
  - intros Hst Hrev. apply bool_decide_eq_false in Hrev.
    destruct (decide (r = currentRow st')) as [->|Hne].
    + destruct (tidy_current st' Htidy Hst row k t Hrow Ht) as [Hbefore Hafter].
      destruct (decide (k < currentCol st')); [by apply Hbefore|].
      rewrite Hafter by lia. done.
    + rewrite Hgt by lia. done.
Qed.

(** X14. In every state such a session reaches, the count the header shows
    after GUESSES LEFT is between 1 and MAX_GUESSES; it never reaches 0, and
    a LOST game shows 1. *)
Theorem X14_guesses_left (toUpperCase : string → string)
    (evs : list (UIEvent * Provider)) (word : string) :
  ∃ st', session toUpperCase evs (startState word) = Returns st'
    ∧ (∃ n, header st' = Some n ∧ (1 ≤ n ≤ Z.of_nat MAX_GUESSES)%Z)
    ∧ (gameStatus st' = LOST → header st' = Some 1%Z).
Proof.
  destruct (session_tidy toUpperCase evs (startState word) (tidy_startState word))
    as (st' & Hrun & (_ & _ & Hr & _) & Hstatus & [Hlost _] & _).
  exists st'. split; [done|].
  unfold header. rewrite decide_False by (destruct Hstatus as [Hs | [Hs | Hs]]; rewrite Hs; done).
  unfold guessesLeft, MAX_GUESSES in *.
  split.
  - eexists. split; [reflexivity|]. lia.
  - intros Hl. destruct (Hlost Hl) as [-> _]. reflexivity.
Qed.

(** X15. When the game is WON or LOST, a click on the Controls button, or a
    key without modifiers whose upper-cased name is ENTER, starts a new game:
    once the provider has delivered a word, the state is the one of a fresh
    game with that word, whatever the finished game left behind; only the
    dark-mode flag is carried over. *)
Theorem X15_restart_is_fresh (toUpperCase : string → string)
    (ev : UIEvent) (p : Provider) (st : State) :
  gameStatus st = WON ∨ gameStatus st = LOST →
  ev = ClickNext
  ∨ (∃ e, ev = KeyDown e ∧ toUpperCase (key e) = "ENTER"
          ∧ ctrlKey e = false ∧ metaKey e = false ∧ altKey e = false) →
  react toUpperCase ev p st
  = Returns (mkState (fetches p) newGrid 0 0 PLAYING false None (isDarkMode st) ∅).
Proof.
  intros Hover [->|(e & -> & Henter & Hc & Hm & Ha)]; unfold react; simpl.
  - unfold Controls. by rewrite decide_True.
  - unfold handleKeyDown. rewrite Hc, Hm, Ha. simpl.
    by rewrite decide_True, decide_True.
Qed.

Lemma X15_restart_is_fresh_witness :
  let st := setMessage (Some "SPLENDID")
              (setGameStatus WON (typedState "CRANE" "CRANE")) in
  let ev := KeyDown (plainKey "Enter") in
  let p := mkProvider true "ALLOY" in
  (gameStatus st = WON ∨ gameStatus st = LOST)
  ∧ (ev = ClickNext
     ∨ (∃ e, ev = KeyDown e ∧ asciiToUpperCase (key e) = "ENTER"
             ∧ ctrlKey e = false ∧ metaKey e = false ∧ altKey e = false))
  ∧ react asciiToUpperCase ev p st
    = Returns (mkState (fetches p) newGrid 0 0 PLAYING false None (isDarkMode st) ∅).
Proof.
  intros st ev p.
  assert (gameStatus st = WON ∨ gameStatus st = LOST) as Hover by (by left).
  assert (ev = ClickNext
          ∨ (∃ e, ev = KeyDown e ∧ asciiToUpperCase (key e) = "ENTER"
                  ∧ ctrlKey e = false ∧ metaKey e = false ∧ altKey e = false)) as Hev.
  { right. exists (plainKey "Enter"). split_and!; reflexivity. }
  split_and!; [exact Hover|exact Hev|].
  exact (X15_restart_is_fresh asciiToUpperCase ev p st Hover Hev).
Defined.

(** X16. In every state such a session reaches, a WON game shows in its
    current row the secret word with every tile CORRECT, and a LOST game is
    on the last row, which does not spell the secret word. *)
Theorem X16_verdict_is_genuine (toUpperCase : string → string)
    (evs : list (UIEvent * Provider)) (word : string) :
  ∃ st' row, session toUpperCase evs (startState word) = Returns st'
    ∧ grid st' !! currentRow st' = Some row
    ∧ (gameStatus st' = WON →
       guessOfRow row = secretWord st' ∧ Forall (λ t, state t = CORRECT) row)
    ∧ (gameStatus st' = LOST →
       currentRow st' = MAX_GUESSES - 1 ∧ guessOfRow row ≠ secretWord st').
Proof.
  destruct (session_tidy toUpperCase evs (startState word) (tidy_startState word))
    as (st' & Hrun & Hwf & _ & [Hlost Hwon] & _).
  destruct (wellFormed_row st' Hwf) as (row & Hrow & _).
  exists st', row. split_and!; [done|done| |].
  - intros Hw. by apply Hwon.
  - intros Hl. destruct (Hlost Hl) as [Hlast Hne]. split; [done|by apply Hne].
Qed.

(** X17. In every state such a session reaches, the keyboard hints are
    exactly what the keyboard update makes of the evaluated rows of the
    grid, in order, from the empty mapping; so the hint of every letter is
    the best state a tile showing it has in the grid. *)
Theorem X17_hints_agree_with_grid (toUpperCase : string → string)
    (evs : list (UIEvent * Provider)) (word : string) :
  ∃ st', session toUpperCase evs (startState word) = Returns st'
    ∧ letterStates st' = foldl updateLetterStates ∅ (evaluatedRows st')
    ∧ ∀ L, rank (letterStates st' !! L) = bestRank L (concat (evaluatedRows st')).
Proof.
  destruct (session_tidy toUpperCase evs (startState word) (tidy_startState word))
    as (st' & Hrun & _).
  pose proof (session_agree toUpperCase evs _ _ Hrun (agree_fresh mountState word))
    as Hagree.
  exists st'. split_and!; [done|exact Hagree|].
  intros L. rewrite Hagree.
  destruct (hints_rank (evaluatedRows st') ∅ L) as [Hr _];
    [intros k; by rewrite lookup_empty|].
  rewrite lookup_empty in Hr. simpl in Hr. lia.
Qed.
